(** * stub_package.py: condensed Python stubs

    A shallow embedding of [stub_package.py] and the properties of its
    signature reconstruction, docstring formatting, declaration rendering and
    file ordering.

    Python values are embedded as follows.
    - [str] is [string]; a character is a code point below 256.
    - [int] is [Z] (or [N] for line numbers, which are never negative).
    - [list] is [list]; an index out of range raises [IndexError].
    - [None]-or-value is [option].
    - Exceptions are the [Raise] branch of the [result] monad.
    - The parser's expression nodes are an abstract type [expr]; the library
      function [ast.unparse] and [ast.get_source_segment] are parameters. *)

From Stdlib Require Import ZArith Lia Ascii DecimalString Permutation Sorted.
From stdpp Require Import base list strings sorting.

Local Open Scope Z_scope.

(** ** Exceptions *)

Inductive exn : Type :=
| IndexError
| ValueError
| OSError.

Inductive result (A : Type) : Type :=
| Ok (a : A)
| Raise (e : exn).

Arguments Ok {A} a.
Arguments Raise {A} e.

#[global] Instance result_ret : MRet result := fun A a => Ok a.
#[global] Instance result_bind : MBind result := fun A B f m =>
  match m with
  | Ok a => f a
  | Raise e => Raise e
  end.

(** [l[i]] for a non-negative index. *)
Definition getitem {A : Type} (l : list A) (i : nat) : result A :=
  match l !! i with
  | Some a => Ok a
  | None => Raise IndexError
  end.

(** ** Python [str] operations *)

Module Str.

Definition nl : ascii := "010"%char.
Definition dquote : ascii := "034"%char.

(** The newline as a one-character string. *)
Definition newline : string := String nl EmptyString.

(** Three double-quote characters. *)
Definition triple_quote : string :=
  String dquote (String dquote (String dquote EmptyString)).

(** [c.isspace()] for a code point below 256. *)
Definition isspace (c : ascii) : bool :=
  let n := N_of_ascii c in
  ((9 <=? n) && (n <=? 13) || (28 <=? n) && (n <=? 32)
   || (n =? 133) || (n =? 160))%N.

Definition is_empty (s : string) : bool :=
  match s with
  | EmptyString => true
  | String _ _ => false
  end.

(** [s.startswith(p)] *)
Fixpoint startswith (s p : string) : bool :=
  match p, s with
  | EmptyString, _ => true
  | String _ _, EmptyString => false
  | String b p', String a s' => Ascii.eqb a b && startswith s' p'
  end.

(** [s.endswith(t)] *)
Fixpoint endswith (s t : string) : bool :=
  String.eqb s t ||
  match s with
  | EmptyString => false
  | String _ s' => endswith s' t
  end.

(** [s.lstrip()] *)
Fixpoint lstrip (s : string) : string :=
  match s with
  | EmptyString => EmptyString
  | String c s' => if isspace c then lstrip s' else s
  end.

(** [s.rstrip()] *)
Fixpoint rstrip (s : string) : string :=
  match s with
  | EmptyString => EmptyString
  | String c s' =>
      let r := rstrip s' in
      if is_empty r && isspace c then EmptyString else String c r
  end.

(** [s.strip()] *)
Definition strip (s : string) : string := rstrip (lstrip s).

(** [s.split(sep)] for a one-character separator. *)
Fixpoint split (sep : ascii) (s : string) : list string :=
  match s with
  | EmptyString => [EmptyString]
  | String c s' =>
      if Ascii.eqb c sep then EmptyString :: split sep s'
      else match split sep s' with
           | l :: ls => String c l :: ls
           | [] => [String c EmptyString]
           end
  end.

(** [sep.join(l)] *)
Fixpoint join (sep : string) (l : list string) : string :=
  match l with
  | [] => EmptyString
  | x :: l' =>
      match l' with
      | [] => x
      | _ :: _ => x +:+ sep +:+ join sep l'
      end
  end.

(** [str(n)] for a non-negative integer. *)
Definition of_N (n : N) : string := NilZero.string_of_uint (N.to_uint n).

(** Comparison of two strings by code points, as [<] on [str]. *)
Fixpoint ltb (s t : string) : bool :=
  match s, t with
  | _, EmptyString => false
  | EmptyString, String _ _ => true
  | String a s', String b t' =>
      (N_of_ascii a <? N_of_ascii b)%N
      || (N_of_ascii a =? N_of_ascii b)%N && ltb s' t'
  end.

End Str.

(** ** The parsed tree *)

Section Ast.

(** Expression nodes of the parser, and statements kept verbatim. *)
Context {expr : Type}.

(** [ast.arg] *)
Record arg : Type := Arg {
  arg_name : string;
  annotation : option expr;
}.

(** [ast.arguments] *)
Record arguments : Type := Arguments {
  posonlyargs : list arg;
  args : list arg;
  vararg : option arg;
  kwonlyargs : list arg;
  kw_defaults : list (option expr);
  kwarg : option arg;
  defaults : list expr;
}.

(** [ast.unparse] on expressions. *)
Variable unparse : expr -> string.

(** *** [format_arguments] *)

(** Lines 21-23 and 41-43: the name with its annotation. *)
Definition arg_text (a : arg) : string :=
  let s := arg_name a in
  match annotation a with
  | Some ann => s +:+ ": " +:+ unparse ann
  | None => s
  end.

(** Lines 21-28: the fragment of the positional parameter at index [i]. *)
Definition positional_fragment (node : arguments) (i : nat) (a : arg)
  : result string :=
  let all_pos := posonlyargs node ++ args node in
  let num_defaults := Z.of_nat (length (defaults node)) in
  let num_pos := Z.of_nat (length all_pos) in
  let s := arg_text a in
  let default_idx := Z.of_nat i - (num_pos - num_defaults) in
  if 0 <=? default_idx then
    d ← getitem (defaults node) (Z.to_nat default_idx);
    mret (s +:+ " = " +:+ unparse d)
  else mret s.

(** Lines 20-30: the loop over [enumerate(all_pos)], from index [i] on. *)
Fixpoint positional_loop (node : arguments) (i : nat) (rest : list arg)
    (parts : list string) : result (list string) :=
  match rest with
  | [] => mret parts
  | a :: rest' =>
      let num_posonly := Z.of_nat (length (posonlyargs node)) in
      s ← positional_fragment node i a;
      let parts := parts ++ [s] in
      let parts :=
        if (Z.of_nat i =? num_posonly - 1) && (0 <? num_posonly)
        then parts ++ ["/"] else parts in
      positional_loop node (S i) rest' parts
  end.

(** Lines 32-38: the variadic-positional parameter or the bare star. *)
Definition star_parts (node : arguments) (parts : list string)
  : list string :=
  match vararg node with
  | Some v =>
      let s := "*" +:+ arg_name v in
      let s := match annotation v with
               | Some ann => s +:+ ": " +:+ unparse ann
               | None => s
               end in
      parts ++ [s]
  | None =>
      match kwonlyargs node with
      | _ :: _ => parts ++ ["*"]
      | [] => parts
      end
  end.

(** Lines 41-47: the fragment of the keyword-only parameter at index [i]. *)
Definition kwonly_fragment (node : arguments) (i : nat) (a : arg)
  : result string :=
  let s := arg_text a in
  default ← getitem (kw_defaults node) i;
  match default with
  | Some d => mret (s +:+ " = " +:+ unparse d)
  | None => mret s
  end.

(** Lines 40-47: the loop over [enumerate(node.kwonlyargs)]. *)
Fixpoint kwonly_loop (node : arguments) (i : nat) (rest : list arg)
    (parts : list string) : result (list string) :=
  match rest with
  | [] => mret parts
  | a :: rest' =>
      s ← kwonly_fragment node i a;
      kwonly_loop node (S i) rest' (parts ++ [s])
  end.

(** Lines 49-53: the variadic-keyword parameter. *)
Definition kwarg_parts (node : arguments) (parts : list string)
  : list string :=
  match kwarg node with
  | Some k =>
      let s := "**" +:+ arg_name k in
      let s := match annotation k with
               | Some ann => s +:+ ": " +:+ unparse ann
               | None => s
               end in
      parts ++ [s]
  | None => parts
  end.

(** The list [parts] when [format_arguments] reaches its [return]. *)
Definition format_arguments_parts (node : arguments)
  : result (list string) :=
  let parts := [] in
  let all_pos := posonlyargs node ++ args node in
  parts ← positional_loop node 0 all_pos parts;
  let parts := star_parts node parts in
  parts ← kwonly_loop node 0 (kwonlyargs node) parts;
  mret (kwarg_parts node parts).

Definition format_arguments (node : arguments) : result string :=
  parts ← format_arguments_parts node;
  mret (Str.join ", " parts).


(** *** Statements *)

(** Nodes the tool copies verbatim: assignments and imports. *)
Context {simple : Type}.

(** [ast.keyword] *)
Record keyword : Type := Keyword {
  kw_arg : option string;
  kw_value : expr;
}.

(** The fields shared by [ast.FunctionDef] and [ast.AsyncFunctionDef]. *)
Record function_def (stmt : Type) : Type := FunctionDefNode {
  fn_name : string;
  fn_args : arguments;
  fn_body : list stmt;
  fn_decorator_list : list expr;
  fn_returns : option expr;
  fn_lineno : N;
  fn_end_lineno : N;
}.

(** Statements; [class_def] holds the fields of [ast.ClassDef]. *)
#[warnings="-register-all"]
Inductive stmt : Type :=
| Expr (value : expr)
| Assign (node : simple)
| AnnAssign (node : simple)
| Import (node : simple)
| ImportFrom (node : simple)
| FunctionDef (node : function_def stmt)
| AsyncFunctionDef (node : function_def stmt)
| ClassDef (node : class_def)
| OtherStmt
with class_def : Type :=
| ClassDefNode (name : string) (bases : list expr)
    (keywords : list keyword) (body : list stmt)
    (decorator_list : list expr) (lineno end_lineno : N).

Definition cls_name (c : class_def) : string :=
  match c with ClassDefNode name _ _ _ _ _ _ => name end.
Definition cls_bases (c : class_def) : list expr :=
  match c with ClassDefNode _ bases _ _ _ _ _ => bases end.
Definition cls_keywords (c : class_def) : list keyword :=
  match c with ClassDefNode _ _ keywords _ _ _ _ => keywords end.
Definition cls_body (c : class_def) : list stmt :=
  match c with ClassDefNode _ _ _ body _ _ _ => body end.
Definition cls_decorator_list (c : class_def) : list expr :=
  match c with ClassDefNode _ _ _ _ decorator_list _ _ => decorator_list end.
Definition cls_lineno (c : class_def) : N :=
  match c with ClassDefNode _ _ _ _ _ lineno _ => lineno end.
Definition cls_end_lineno (c : class_def) : N :=
  match c with ClassDefNode _ _ _ _ _ _ end_lineno => end_lineno end.

(** The [str] held by an [ast.Constant] node, [None] for any other node. *)
Variable constant_str : expr -> option string.

(** [ast.get_source_segment] and [ast.unparse] on statements. *)
Variable get_source_segment : string -> stmt -> option string.
Variable unparse_stmt : stmt -> string.

(** [ast.parse], a module's top-level statements. *)
Variable ast_parse : string -> result (list stmt).

(** The test of lines 62-64, 166-168 and 238-240. *)
Definition is_str_expr (s : stmt) : option string :=
  match s with
  | Expr value => constant_str value
  | _ => None
  end.

(** *** [get_docstring] *)
Definition get_docstring (body : list stmt) : option string :=
  match body with
  | first :: _ => is_str_expr first
  | [] => None
  end.

(** The truth value of a [str] or [None]. *)
Definition truthy (o : option string) : bool :=
  match o with
  | Some s => negb (Str.is_empty s)
  | None => false
  end.

(** [segment if segment else ast.unparse(node)] *)
Definition segment_or_unparse (source : string) (node : stmt) : string :=
  let segment := get_source_segment source node in
  if truthy segment then default EmptyString segment else unparse_stmt node.

End Ast.

Arguments arg : clear implicits.
Arguments arguments : clear implicits.
Arguments keyword : clear implicits.
Arguments function_def : clear implicits.
Arguments class_def : clear implicits.
Arguments stmt : clear implicits.
Arguments FunctionDefNode {expr stmt}.
Arguments fn_name {expr stmt}.
Arguments fn_args {expr stmt}.
Arguments fn_body {expr stmt}.
Arguments fn_decorator_list {expr stmt}.
Arguments fn_returns {expr stmt}.
Arguments fn_lineno {expr stmt}.
Arguments fn_end_lineno {expr stmt}.

(** ** [_format_docstring] *)

(** Lines 77-81: one step of the loop over [lines[1:]]. *)
Definition docstring_line (indent result line : string) : string :=
  if negb (Str.is_empty (Str.strip line))
  then result +:+ indent +:+ line +:+ Str.newline
  else result +:+ Str.newline.

(** Lines 76-81: the block before the closing quotes are looked at. *)
Definition docstring_block (lines : list string) (indent : string) : string :=
  let result :=
    indent +:+ Str.triple_quote +:+ default EmptyString (head lines)
      +:+ Str.newline in
  fold_left (docstring_line indent) (tail lines) result.

Definition _format_docstring (doc indent : string) : string :=
  let lines := Str.split Str.nl doc in
  if (length lines =? 1)%nat then
    indent +:+ Str.triple_quote +:+ doc +:+ Str.triple_quote +:+ Str.newline
  else
    let result := docstring_block lines indent in
    if negb (Str.endswith (Str.rstrip result) Str.triple_quote)
    then result +:+ indent +:+ Str.triple_quote +:+ Str.newline
    else result.

(** ** [_is_private] *)

Definition _is_private (name : string) : bool :=
  Str.startswith name "_"
  && negb (Str.startswith name "__" && Str.endswith name "__").

(** ** Rendering declarations *)

Section Render.

Context {expr simple : Type}.

Local Abbreviation stmt_node := (stmt expr simple).
Local Abbreviation function_node := (function_def expr (stmt expr simple)).
Local Abbreviation class_node := (class_def expr simple).

Variable unparse : expr -> string.
Variable constant_str : expr -> option string.
Variable get_source_segment : string -> stmt_node -> option string.
Variable unparse_stmt : stmt_node -> string.
Variable ast_parse : string -> result (list (stmt_node)).

(** Lines 99 and 136: the location comment. *)
Definition location_comment (indent source_file : string)
    (lineno end_lineno : N) : string :=
  indent +:+ "# " +:+ source_file +:+ ":" +:+ Str.of_N lineno +:+ "-"
    +:+ Str.of_N end_lineno.

(** Lines 102-103 and 139-140: one line per decorator. *)
Definition decorator_lines (indent : string) (decorator_list : list expr)
  : list string :=
  map (fun dec => indent +:+ "@" +:+ unparse dec) decorator_list.

(** Lines 114-117 and 157-160: the docstring block, if one is shown. *)
Definition docstring_lines (body : list (stmt_node))
    (include_docstrings : bool) (body_indent : string) : list string :=
  let doc :=
    if include_docstrings then get_docstring constant_str body else None in
  if truthy doc
  then [Str.rstrip (_format_docstring (default EmptyString doc) body_indent)]
  else [].

(** *** [stub_function] *)

(** Lines 106-111: the line with [def]. *)
Definition signature_line (is_async : bool)
    (node : function_node) (indent : string)
  : result string :=
  let async_prefix := if is_async then "async " else EmptyString in
  sig ← format_arguments unparse (fn_args node);
  let ret := match fn_returns node with
             | Some r => " -> " +:+ unparse r
             | None => EmptyString
             end in
  mret (indent +:+ async_prefix +:+ "def " +:+ fn_name node +:+ "(" +:+ sig
          +:+ ")" +:+ ret +:+ ":").

(** The list [lines] when [stub_function] reaches its [return];
    [is_async] is [isinstance(node, ast.AsyncFunctionDef)]. *)
Definition stub_function_lines (is_async : bool)
    (node : function_node)
    (source_file indent : string) (include_docstrings : bool)
  : result (list string) :=
  let lines := [] in
  let lines :=
    lines ++ [location_comment indent source_file (fn_lineno node)
                (fn_end_lineno node)] in
  let lines := lines ++ decorator_lines indent (fn_decorator_list node) in
  header ← signature_line is_async node indent;
  let lines := lines ++ [header] in
  let body_indent := indent +:+ "    " in
  let lines :=
    lines ++ docstring_lines (fn_body node) include_docstrings body_indent in
  let lines := lines ++ [body_indent +:+ "..."] in
  mret lines.

Definition stub_function (is_async : bool)
    (node : function_node)
    (source_file indent : string) (include_docstrings : bool)
  : result string :=
  lines ← stub_function_lines is_async node source_file indent
            include_docstrings;
  mret (Str.join Str.newline lines).

(** *** [stub_class] *)

(** Lines 143-151: the bases and keywords between the parentheses. *)
Definition base_str (node : class_node) : string :=
  let bases := map unparse (cls_bases node) in
  let bases :=
    bases ++
    map (fun kw =>
           if truthy (kw_arg kw)
           then default EmptyString (kw_arg kw) +:+ "=" +:+ unparse (kw_value kw)
           else "**" +:+ unparse (kw_value kw))
        (cls_keywords node) in
  match bases with
  | [] => EmptyString
  | _ :: _ => "(" +:+ Str.join ", " bases +:+ ")"
  end.

(** Lines 164-217: the loop body for the child at index [i]; the state is
    [(lines, has_content)], and [rec] renders a nested class. *)
Definition class_child
    (rec : class_node -> string -> result string)
    (source source_file body_indent : string)
    (include_docstrings include_private : bool)
    (i : nat) (child : stmt_node) (st : list string * bool)
  : result (list string * bool) :=
  let '(lines, has_content) := st in
  if bool_decide (is_Some (is_str_expr constant_str child)) && (i =? 0)%nat
  then mret (lines, has_content)
  else
    match child with
    | AnnAssign _ | Assign _ =>
        mret (lines ++ [body_indent +:+
                          segment_or_unparse get_source_segment unparse_stmt
                            source child], true)
    | FunctionDef f =>
        if negb include_private && _is_private (fn_name f)
        then mret (lines, has_content)
        else
          s ← stub_function false f source_file body_indent
                include_docstrings;
          mret (lines ++ [EmptyString] ++ [s], true)
    | AsyncFunctionDef f =>
        if negb include_private && _is_private (fn_name f)
        then mret (lines, has_content)
        else
          s ← stub_function true f source_file body_indent
                include_docstrings;
          mret (lines ++ [EmptyString] ++ [s], true)
    | ClassDef c =>
        if negb include_private && _is_private (cls_name c)
        then mret (lines, has_content)
        else
          s ← rec c body_indent;
          mret (lines ++ [EmptyString] ++ [s], true)
    | _ => mret (lines, has_content)
    end.

(** Lines 163-217: the loop over [node.body], from the child at index [i]
    on. *)
Definition class_loop
    (rec : class_node -> string -> result string)
    (source source_file body_indent : string)
    (include_docstrings include_private : bool)
  : nat -> list stmt_node -> list string * bool
    -> result (list string * bool) :=
  fix loop (i : nat) (children : list stmt_node)
      (st : list string * bool) {struct children} :=
    match children with
    | [] => mret st
    | child :: rest =>
        st ← class_child rec source source_file body_indent
               include_docstrings include_private i child st;
        loop (S i) rest st
    end.

Fixpoint stub_class (node : class_node)
    (source source_file indent : string)
    (include_docstrings include_private : bool) {struct node}
  : result string :=
  let lines := [] in
  let lines :=
    lines ++ [location_comment indent source_file (cls_lineno node)
                (cls_end_lineno node)] in
  let lines := lines ++ decorator_lines indent (cls_decorator_list node) in
  let lines :=
    lines ++ [indent +:+ "class " +:+ cls_name node +:+ base_str node
                +:+ ":"] in
  let body_indent := indent +:+ "    " in
  let doc := docstring_lines (cls_body node) include_docstrings body_indent in
  let lines := lines ++ doc in
  let has_content := bool_decide (doc <> []) in
  st ← class_loop
         (fun c ind =>
            stub_class c source source_file ind
              include_docstrings include_private)
         source source_file body_indent include_docstrings include_private
         0%nat (cls_body node) (lines, has_content);
  let '(lines, has_content) := st in
  let lines :=
    if negb has_content then lines ++ [body_indent +:+ "..."] else lines in
  mret (Str.join Str.newline lines).

(** *** [stub_module] *)

(** Lines 236-297: the loop body for the top-level node at index [i]. *)
Definition module_node (source source_file : string)
    (include_docstrings include_private : bool)
    (i : nat) (node : stmt_node) (parts : list string)
  : result (list string) :=
  match is_str_expr constant_str node with
  | Some value =>
      if (i =? 0)%nat then
        if include_docstrings then
          let segment := get_source_segment source node in
          if truthy segment
          then mret (parts ++ [default EmptyString segment])
          else mret (parts ++ [Str.triple_quote +:+ value
                                 +:+ Str.triple_quote])
        else mret parts
      else mret parts
  | None =>
      match node with
      | Import _ | ImportFrom _ | Assign _ | AnnAssign _ =>
          mret (parts ++ [segment_or_unparse get_source_segment unparse_stmt
                            source node])
      | FunctionDef f =>
          if negb include_private && _is_private (fn_name f) then mret parts
          else
            s ← stub_function false f source_file EmptyString
                  include_docstrings;
            mret (parts ++ [s])
      | AsyncFunctionDef f =>
          if negb include_private && _is_private (fn_name f) then mret parts
          else
            s ← stub_function true f source_file EmptyString
                  include_docstrings;
            mret (parts ++ [s])
      | ClassDef c =>
          if negb include_private && _is_private (cls_name c) then mret parts
          else
            s ← stub_class c source source_file EmptyString
                  include_docstrings include_private;
            mret (parts ++ [s])
      | _ => mret parts
      end
  end.

Fixpoint module_loop (source source_file : string)
    (include_docstrings include_private : bool)
    (i : nat) (nodes : list stmt_node) (parts : list string)
  : result (list string) :=
  match nodes with
  | [] => mret parts
  | node :: rest =>
      parts ← module_node source source_file include_docstrings
                include_private i node parts;
      module_loop source source_file include_docstrings include_private
        (S i) rest parts
  end.

Definition stub_module (source source_file : string)
    (include_docstrings include_private : bool) : result string :=
  tree ← ast_parse source;
  parts ← module_loop source source_file include_docstrings include_private
            0%nat tree [];
  mret (Str.join (Str.newline +:+ Str.newline) parts).

End Render.

(** ** Walking a package *)

(** A [Path] is the list of its parts. *)
Definition path : Type := list string.

(** The first part of an absolute POSIX path: its anchor. No other part
    holds a slash. *)
Definition is_anchor (part : string) : bool := Str.startswith part "/".

(** [str(p)]: the parts joined by slashes after the anchor, and a dot for
    the path with no part. *)
Definition path_str (p : path) : string :=
  match p with
  | [] => "."
  | part :: rest =>
      if is_anchor part then part +:+ Str.join "/" rest
      else Str.join "/" p
  end.

(** [p.relative_to(root)] *)
Fixpoint relative_to (p root : path) : result path :=
  match root, p with
  | [], _ => Ok p
  | r :: root', x :: p' =>
      if String.eqb x r then relative_to p' root' else Raise ValueError
  | _ :: _, [] => Raise ValueError
  end.

(** [<] on tuples of [str]. *)
Fixpoint tuple_ltb (k1 k2 : list string) : bool :=
  match k1, k2 with
  | _, [] => false
  | [], _ :: _ => true
  | x :: k1', y :: k2' =>
      if String.eqb x y then tuple_ltb k1' k2' else Str.ltb x y
  end.

(** The character with code 0 as a one-character string. *)
Definition nul : string := String "000"%char EmptyString.

(** [parts[-1] = x] on a list that is not empty. *)
Fixpoint set_last (parts : list string) (x : string) : list string :=
  match parts with
  | [] => []
  | [_] => [x]
  | p :: parts' => p :: set_last parts' x
  end.

Definition _sort_key (p root : path) : result (list string) :=
  rel ← relative_to p root;
  let parts := rel in
  match last parts with
  | None => Raise IndexError
  | Some name =>
      if String.eqb name "__init__.py"
      then mret (set_last parts nul)
      else mret parts
  end.

(** [sorted] puts an element before the first one that is not smaller. *)
Fixpoint sorted_insert {A : Type} (x : list string * A)
    (l : list (list string * A)) : list (list string * A) :=
  match l with
  | [] => [x]
  | y :: l' =>
      if tuple_ltb (fst y) (fst x) then y :: sorted_insert x l' else x :: l
  end.

(** The stable sort of the pairs of a key and an item, by key. *)
Fixpoint sorted_keyed {A : Type} (l : list (list string * A))
  : list (list string * A) :=
  match l with
  | [] => []
  | x :: l' => sorted_insert x (sorted_keyed l')
  end.

(** Line 324: [sorted(files, key=lambda p: _sort_key(p, root))]; every key
    is computed before the items are ordered. *)
Definition sorted_py_files (root : path) (files : list path)
  : result (list path) :=
  keyed ← mapM (fun p => k ← _sort_key p root; mret (k, p)) files;
  mret (map snd (sorted_keyed keyed)).

(** A path that is its anchor only. *)
Definition anchor_only (p : path) : bool :=
  match p with
  | [part] => is_anchor part
  | _ => false
  end.

(** [p.parent]: a path that is its anchor only is its own parent. *)
Definition parent (p : path) : path :=
  if anchor_only p then p else removelast p.

(** [p.name]: the last part, the empty string when there is none besides
    the anchor. *)
Definition path_name (p : path) : string :=
  if anchor_only p then EmptyString else default EmptyString (last p).

(** What the walker asks of the file system; reading a file may raise. *)
Record file_system : Type := FileSystem {
  is_file : path -> bool;
  read_text : path -> result string;
  rglob_py : path -> list path;
}.

Section Package.

(** [stub_module] with its two flags fixed. *)
Variable stub_module_of : string -> string -> result string.
Variable fs : file_system.

(** Lines 328-340: the loop body for one file. *)
Definition package_section (root py_file : path) (sections : list string)
  : result (list string) :=
  rel ← relative_to py_file (parent root);
  source ← read_text fs py_file;
  if Str.is_empty (Str.strip source) then mret sections
  else
    let header := "# === " +:+ path_str rel +:+ " ===" in
    body ← stub_module_of source (path_str rel);
    if negb (Str.is_empty (Str.strip body))
    then mret (sections ++ [header +:+ Str.newline +:+ Str.newline +:+ body])
    else mret sections.

Fixpoint package_loop (root : path) (py_files : list path)
    (sections : list string) : result (list string) :=
  match py_files with
  | [] => mret sections
  | py_file :: rest =>
      sections ← package_section root py_file sections;
      package_loop root rest sections
  end.

Definition stub_package (p : path) : result string :=
  if is_file fs p then
    source ← read_text fs p;
    stub_module_of source (path_name p)
  else
    py_files ← sorted_py_files p (rglob_py fs p);
    sections ← package_loop p py_files [];
    mret (Str.join (Str.newline +:+ Str.newline) sections).

End Package.

(** ** Reading the fragments of a signature *)

(** The first character of a string. *)
Definition first_char (s : string) : option ascii :=
  match s with
  | EmptyString => None
  | String c _ => Some c
  end.

Section Fragments.

Context {expr : Type}.
Variable unparse : expr -> string.

(** A parameter rendered with the default it is given, if any. *)
Definition with_default (a : arg expr) (d : option expr) : string :=
  match d with
  | Some d => arg_text unparse a +:+ " = " +:+ unparse d
  | None => arg_text unparse a
  end.

(** The default that line 25-27 picks for the positional parameter at
    index [i], whatever the number of defaults. *)
Definition positional_default (node : arguments expr) (i : nat)
  : option expr :=
  let n := length (posonlyargs node ++ args node) in
  let d := length (defaults node) in
  if decide (n <= i + d)%nat then defaults node !! (i + d - n)%nat else None.

(** The rule as the specification words it: the parameter at index [i]
    has a default iff [i >= n - d], and it is [defaults[i - (n - d)]]. *)
Definition trailing_default (node : arguments expr) (i : nat)
  : option expr :=
  let n := length (posonlyargs node ++ args node) in
  let d := length (defaults node) in
  if decide (n - d <= i)%nat then defaults node !! (i - (n - d))%nat
  else None.

(** The positional parameter [a] at index [i], with that default. *)
Definition positional_text (node : arguments expr) (i : nat) (a : arg expr)
  : string :=
  with_default a (positional_default node i).

(** The keyword-only parameter [a] at index [i], with the entry of
    [kw_defaults] at the same index. *)
Definition kwonly_text (node : arguments expr) (i : nat) (a : arg expr)
  : string :=
  with_default a (default None (kw_defaults node !! i)).

(** The index in [parts] of the positional parameter at index [i]: the
    marker after [p] positional-only parameters takes one place. *)
Definition positional_slot (p i : nat) : nat :=
  if decide (0 < p <= i)%nat then S i else i.

(** The index in [parts] after the positional parameters and the marker. *)
Definition star_slot (node : arguments expr) : nat :=
  (length (posonlyargs node ++ args node)
   + match posonlyargs node with [] => 0 | _ :: _ => 1 end)%nat.

(** The fragment that line 33-36 builds for [*name]. *)
Definition vararg_text (v : arg expr) : string :=
  match annotation v with
  | Some ann => ("*" +:+ arg_name v) +:+ ": " +:+ unparse ann
  | None => "*" +:+ arg_name v
  end.

(** The fragments of the positional parameters, with the marker after
    the positional-only ones. *)
Definition positional_parts (node : arguments expr) : list string :=
  imap (positional_text node) (posonlyargs node)
  ++ match posonlyargs node with [] => [] | _ :: _ => ["/"] end
  ++ imap (fun j => positional_text node (length (posonlyargs node) + j))
       (args node).

(** The fragments of the keyword-only parameters. *)
Definition kwonly_parts (node : arguments expr) : list string :=
  imap (kwonly_text node) (kwonlyargs node).

(** The same parameter list with other positional defaults. *)
Definition set_defaults (node : arguments expr) (ds : list expr)
  : arguments expr :=
  Arguments (posonlyargs node) (args node) (vararg node) (kwonlyargs node)
    (kw_defaults node) (kwarg node) ds.

End Fragments.

(** A Python identifier: a letter, an underscore or a code point above 127,
    then letters, digits, underscores and code points above 127. *)
Definition identifier_start (c : ascii) : bool :=
  let n := N_of_ascii c in
  ((65 <=? n) && (n <=? 90) || (97 <=? n) && (n <=? 122) || (n =? 95)
   || (128 <=? n))%N.

Definition identifier_char (c : ascii) : bool :=
  let n := N_of_ascii c in
  (identifier_start c || (48 <=? n) && (n <=? 57))%N.

Fixpoint all_chars (f : ascii -> bool) (s : string) : bool :=
  match s with
  | EmptyString => true
  | String c s' => f c && all_chars f s'
  end.

Definition is_identifier (s : string) : bool :=
  match s with
  | EmptyString => false
  | String c s' => identifier_start c && all_chars identifier_char s'
  end.

(** A string that starts as an identifier does. *)
Definition starts_as_identifier (x : string) : Prop :=
  exists c, first_char x = Some c /\ identifier_start c = true.

(** Every parameter of the list is named by an identifier. *)
Definition identifier_names {expr : Type} (node : arguments expr) : Prop :=
  Forall (fun a => is_identifier (arg_name a) = true)
    (posonlyargs node ++ args node ++ kwonlyargs node
       ++ option_list (vararg node) ++ option_list (kwarg node)).

(** The parser gives one entry of [kw_defaults] per keyword-only parameter. *)
Definition kw_defaults_aligned {expr : Type} (node : arguments expr) : Prop :=
  length (kw_defaults node) = length (kwonlyargs node).

(** ** Reading a block of lines *)

(** Every character of [s] satisfies [f]: see [all_chars]. A string of
    whitespace only is one that [strip] empties. *)
Definition all_space (s : string) : bool := all_chars Str.isspace s.

(** The text that the loop of lines 77-81 adds for the lines [ls]. *)
Fixpoint continuation (indent : string) (ls : list string) : string :=
  match ls with
  | [] => EmptyString
  | line :: ls' =>
      (if negb (Str.is_empty (Str.strip line))
       then indent +:+ line +:+ Str.newline
       else Str.newline) +:+ continuation indent ls'
  end.

(** The lines [ls], each one ended by a line break. *)
Fixpoint unlines (ls : list string) : string :=
  match ls with
  | [] => EmptyString
  | line :: ls' => line +:+ Str.newline +:+ unlines ls'
  end.

(** The number of line breaks in [s]. *)
Fixpoint count_newlines (s : string) : nat :=
  match s with
  | EmptyString => 0%nat
  | String c s' =>
      ((if Ascii.eqb c Str.nl then 1 else 0) + count_newlines s')%nat
  end.

(** A docstring of two lines whose text ends with three double quotes, as
    the body of a string literal in single quotes may. *)
Definition quoted_doc : string :=
  "a" +:+ Str.newline +:+ "b" +:+ Str.triple_quote.

(** The same function declaration with another body. *)
Definition set_body {expr simple : Type}
    (node : function_def expr (stmt expr simple))
    (body : list (stmt expr simple))
  : function_def expr (stmt expr simple) :=
  FunctionDefNode (fn_name node) (fn_args node) body (fn_decorator_list node)
    (fn_returns node) (fn_lineno node) (fn_end_lineno node).

(** The name of a nested function or class, [None] for another statement. *)
Definition member_name {expr simple : Type} (child : stmt expr simple)
  : option string :=
  match child with
  | FunctionDef f | AsyncFunctionDef f => Some (fn_name f)
  | ClassDef c => Some (cls_name c)
  | _ => None
  end.

(** The same class declaration with another body. *)
Definition set_class_body {expr simple : Type} (node : class_def expr simple)
    (body : list (stmt expr simple)) : class_def expr simple :=
  ClassDefNode (cls_name node) (cls_bases node) (cls_keywords node) body
    (cls_decorator_list node) (cls_lineno node) (cls_end_lineno node).

(** The stub of a nested function or class as lines 194-199 and 208-215
    compute it, [rec] rendering a nested class; [None] for another
    statement. *)
Definition member_stub {expr simple : Type} (unparse : expr -> string)
    (constant_str : expr -> option string)
    (rec : class_def expr simple -> string -> result string)
    (source_file body_indent : string) (include_docstrings : bool)
    (child : stmt expr simple) : option (result string) :=
  match child with
  | FunctionDef f =>
      Some (stub_function unparse constant_str false f source_file
              body_indent include_docstrings)
  | AsyncFunctionDef f =>
      Some (stub_function unparse constant_str true f source_file
              body_indent include_docstrings)
  | ClassDef c => Some (rec c body_indent)
  | _ => None
  end.

(** The state [(lines, has_content)] after some passes of the loop of lines
    163-217 that add [added] and set the flag to [flag] when they start
    with no line and the flag unset. *)
Definition from_state (st : list string * bool)
    (r : result (list string * bool)) : result (list string * bool) :=
  match r with
  | Ok (added, flag) => Ok (st.1 ++ added, st.2 || flag)
  | Raise e => Raise e
  end.

(** The lines of the body of a class stub: a placeholder when there is no
    other line. *)
Definition body_or_placeholder (body_indent : string)
    (body_lines : list string) : list string :=
  match body_lines with
  | [] => [body_indent +:+ "..."]
  | _ :: _ => body_lines
  end.

(** A method with the one parameter [self] and no docstring. *)
Definition sample_method (name : string) (lineno : N)
  : stmt string string :=
  FunctionDef
    (FunctionDefNode name (Arguments [] [Arg "self" None] None [] [] None [])
       [OtherStmt] [] None lineno (lineno + 1)%N).

(** A class with the four members [__init__], [_helper], [helper] and
    [__eq__]. *)
Definition sample_class : class_def string string :=
  ClassDefNode "C" [] []
    [sample_method "__init__" 2; sample_method "_helper" 4;
     sample_method "helper" 6; sample_method "__eq__" 8]
    [] 1%N 9%N.

(** ** Reading the order of the files *)

(** [x] does not come after [y]: the key of [y] is not smaller. *)
Definition key_le {A : Type} (x y : list string * A) : Prop :=
  tuple_ltb (fst y) (fst x) = false.

(** The name of a file or directory: not empty, and no character of code
    0 in it. *)
Definition is_file_name (s : string) : bool :=
  negb (Str.is_empty s)
  && all_chars (fun c => negb (Ascii.eqb c "000"%char)) s.

(** The package of the specification's example, in the order it lists the
    files; the root directory is [pkg]. *)
Definition sample_root : path := ["pkg"].

Definition sample_files : list path :=
  [["pkg"; "__init__.py"]; ["pkg"; "b.py"]; ["pkg"; "a.py"];
   ["pkg"; "sub"; "__init__.py"]; ["pkg"; "sub"; "c.py"]].

Definition sample_files_sorted : list path :=
  [["pkg"; "__init__.py"]; ["pkg"; "a.py"]; ["pkg"; "b.py"];
   ["pkg"; "sub"; "__init__.py"]; ["pkg"; "sub"; "c.py"]].

(** A file system that holds the sample package, every file with the text
    [x = 1], and lists its files in the order [files]. *)
Definition sample_fs (files : list path) : file_system :=
  FileSystem (fun _ => false) (fun _ => Ok "x = 1") (fun _ => files).

(** A parser for that text: one assignment, kept verbatim. *)
Definition sample_parse (source : string)
  : result (list (stmt string string)) :=
  Ok [Assign source].

Definition sample_stub_module (source source_file : string) : result string :=
  stub_module id Some
    (fun _ node => match node with Assign s => Some s | _ => None end)
    (fun _ => EmptyString) sample_parse source source_file true true.

(** The sections of the sample package, in the order of the
    specification's example. *)
Definition sample_sections : list string :=
  map (fun rel =>
         "# === " +:+ rel +:+ " ===" +:+ Str.newline +:+ Str.newline
           +:+ "x = 1")
      ["pkg/__init__.py"; "pkg/a.py"; "pkg/b.py"; "pkg/sub/__init__.py";
       "pkg/sub/c.py"].

(** A parameter list of every kind of parameter, its expressions given by
    their text:
    [a, b: int = 1, /, c = 2, d = 3, *rest, k, m: str = 4, **kw]. *)
Definition sample_arguments : arguments string :=
  Arguments [Arg "a" None; Arg "b" (Some "int")]
    [Arg "c" None; Arg "d" None]
    (Some (Arg "rest" None))
    [Arg "k" None; Arg "m" (Some "str")]
    [None; Some "4"]
    (Some (Arg "kw" None))
    ["1"; "2"; "3"].

(** [x, *, key = None] *)
Definition sample_keyword_only : arguments string :=
  Arguments [] [Arg "x" None] None [Arg "key" None] [Some "None"] None [].

(** [def f(...)] with the parameters of [sample_arguments], a docstring and
    a statement of no rendered kind. *)
Definition sample_function : function_def string (stmt string string) :=
  FunctionDefNode "f" sample_arguments [Expr "doc"; OtherStmt] [] None
    3%N 9%N.

(** ** Further readings of the fragments and of the loops *)

(** The fragment that line 50-53 builds for [**name]. *)
Definition kwarg_text {expr : Type} (unparse : expr -> string)
    (k : arg expr) : string :=
  match annotation k with
  | Some ann => ("**" +:+ arg_name k) +:+ ": " +:+ unparse ann
  | None => "**" +:+ arg_name k
  end.

(** The number of fragments of lines 32-38: one when there is a
    variadic-positional parameter or a keyword-only one. *)
Definition star_count {expr : Type} (node : arguments expr) : nat :=
  match vararg node, kwonlyargs node with
  | None, [] => 0
  | _, _ => 1
  end.

(** The line that lines 78-81 emit for a continuation line, without its
    line break: the indented line, or nothing for a blank line. *)
Definition reindent (indent line : string) : string :=
  if negb (Str.is_empty (Str.strip line)) then indent +:+ line
  else EmptyString.

(** A statement of a class body that the loop of lines 163-217 passes
    over: an expression statement, an import, a statement of another kind,
    or a nested function or class that private filtering leaves out. *)
Definition class_silent {expr simple : Type} (include_private : bool)
    (child : stmt expr simple) : bool :=
  match child with
  | Expr _ | Import _ | ImportFrom _ | OtherStmt => true
  | Assign _ | AnnAssign _ => false
  | FunctionDef f | AsyncFunctionDef f =>
      negb include_private && _is_private (fn_name f)
  | ClassDef c => negb include_private && _is_private (cls_name c)
  end.

(** The lines of a class stub before its body: the comment, the decorators
    and the line with [class]. *)
Definition class_head_lines {expr simple : Type} (unparse : expr -> string)
    (node : class_def expr simple) (source_file indent : string)
  : list string :=
  location_comment indent source_file (cls_lineno node) (cls_end_lineno node)
  :: decorator_lines unparse indent (cls_decorator_list node)
  ++ [indent +:+ "class " +:+ cls_name node +:+ base_str unparse node +:+ ":"].

(** [class E: pass], with no base and no decorator. *)
Definition sample_empty_class : class_def string string :=
  ClassDefNode "E" [] [] [OtherStmt] [] 1%N 2%N.

(** A top-level node that the loop of lines 235-297 passes over at index
    [i]: a string expression statement that is not the first node or whose
    rendering is switched off, another expression statement, a statement of
    another kind, or a function or class that private filtering leaves
    out. *)
Definition module_silent {expr simple : Type}
    (constant_str : expr -> option string)
    (include_docstrings include_private : bool) (i : nat)
    (node : stmt expr simple) : bool :=
  match is_str_expr constant_str node with
  | Some _ => negb ((i =? 0)%nat && include_docstrings)
  | None =>
      match node with
      | Expr _ | OtherStmt => true
      | Import _ | ImportFrom _ | Assign _ | AnnAssign _ => false
      | FunctionDef f | AsyncFunctionDef f =>
          negb include_private && _is_private (fn_name f)
      | ClassDef c => negb include_private && _is_private (cls_name c)
      end
  end.

(** A path with at least one part below [root]. *)
Definition below (root p : path) : Prop :=
  exists rel, p = root ++ rel /\ rel <> [].

(** A path below [root] whose parts below it are names of files or
    directories. *)
Definition named_below (root p : path) : Prop :=
  exists rel,
    p = root ++ rel /\ rel <> []
    /\ Forall (fun s => is_file_name s = true) rel.

Section Sections.

Variable stub_module_of : string -> string -> result string.
Variable fs : file_system.

(** The section that lines 328-340 add for one file, [None] when they add
    none. *)
Definition section_of (root py_file : path) : option string :=
  match relative_to py_file (parent root), read_text fs py_file with
  | Ok rel, Ok source =>
      if Str.is_empty (Str.strip source) then None
      else
        match stub_module_of source (path_str rel) with
        | Ok body =>
            if negb (Str.is_empty (Str.strip body))
            then Some (("# === " +:+ path_str rel +:+ " ===")
                         +:+ Str.newline +:+ Str.newline +:+ body)
            else None
        | Raise _ => None
        end
  | _, _ => None
  end.

(** The file is read without an exception and, when its text is not
    blank, its module is rendered without one. *)
Definition renders (root py_file : path) : Prop :=
  exists source,
    read_text fs py_file = Ok source
    /\ forall rel,
         relative_to py_file (parent root) = Ok rel ->
         Str.is_empty (Str.strip source) = false ->
         exists body, stub_module_of source (path_str rel) = Ok body.

End Sections.

(** A file with its key, as line 324 pairs them; the empty key stands for a
    path that has none. *)
Definition keyed_of (root p : path) : list string * path :=
  match _sort_key p root with
  | Ok k => (k, p)
  | Raise _ => ([], p)
  end.

(** The name made of [n] underscores. *)
Fixpoint underscores (n : nat) : string :=
  match n with
  | O => EmptyString
  | S n' => String "_" (underscores n')
  end.

(** [def f(x = 1, 2)] is no Python, but a tree may hold it: one positional
    parameter and two defaults. *)
Definition sample_surplus : arguments string :=
  Arguments [] [Arg "x" None] None [] [] None ["1"; "2"].

(** A docstring of three lines, the second one blank. *)
Definition sample_doc : string :=
  "Sum." +:+ Str.newline +:+ "  " +:+ Str.newline +:+ "Returns int.".

(** A module of an assignment and a private function. *)
Definition sample_module : list (stmt string string) :=
  [Assign "x = 1"; sample_method "_hidden" 3].

(** A module that holds a private function only. *)
Definition sample_private_module : list (stmt string string) :=
  [sample_method "_hidden" 1].

(** [stub_module] with private filtering, for a parser that gives
    [sample_private_module] for every text. *)
Definition sample_private_stub_module (source source_file : string)
  : result string :=
  stub_module id Some (fun _ _ => None) (fun _ => EmptyString)
    (fun _ => Ok sample_private_module) source source_file true false.

(** A parser that rejects every text. *)
Definition failing_stub_module (source source_file : string) : result string :=
  stub_module id Some (fun _ _ => None)
    (fun _ : stmt string string => EmptyString)
    (fun _ => Raise ValueError) source source_file true true.

(** ** Facts about [str] *)

Lemma str_app_cons (c : ascii) (s t : string) :
  String c s +:+ t = String c (s +:+ t).
Proof. reflexivity. Qed.

Lemma str_app_nil_l (s : string) : EmptyString +:+ s = s.
Proof. reflexivity. Qed.

Lemma str_app_nil_r (s : string) : s +:+ EmptyString = s.
Proof.
  induction s as [|c s IH]; [reflexivity|].
  rewrite str_app_cons, IH. reflexivity.
Qed.

Lemma str_app_assoc (s t u : string) : (s +:+ t) +:+ u = s +:+ t +:+ u.
Proof.
  induction s as [|c s IH]; [reflexivity|].
  rewrite !str_app_cons, IH. reflexivity.
Qed.

Lemma str_app_inv_head (s t u : string) : s +:+ t = s +:+ u -> t = u.
Proof.
  induction s as [|c s IH]; [trivial|].
  rewrite !str_app_cons. intros [= H]. auto.
Qed.

Lemma str_app_length (s t : string) :
  String.length (s +:+ t) = (String.length s + String.length t)%nat.
Proof.
  induction s as [|c s IH]; [reflexivity|].
  rewrite str_app_cons. simpl. rewrite IH. reflexivity.
Qed.

(** Appending a string that is not empty changes a string. *)
Lemma str_app_neq (s t : string) : t <> EmptyString -> s +:+ t <> s.
Proof.
  intros Ht H. apply (f_equal String.length) in H.
  rewrite str_app_length in H. destruct t; [congruence|simpl in H; lia].
Qed.

Lemma first_char_app (s t : string) (c : ascii) :
  first_char s = Some c -> first_char (s +:+ t) = Some c.
Proof. destruct s; [discriminate|]. rewrite str_app_cons. trivial. Qed.

Local Open Scope nat_scope.

(** ** Facts about the [result] monad *)

Lemma bind_Ok {A B : Type} (f : A -> result B) (a : A) :
  (Ok a ≫= f) = f a.
Proof. reflexivity. Qed.

Lemma getitem_Ok {A : Type} (l : list A) (i : nat) (a : A) :
  l !! i = Some a -> getitem l i = Ok a.
Proof. unfold getitem. intros ->. reflexivity. Qed.

Lemma imap_cons_shift {A B : Type} (F : nat -> A -> B) (i : nat) (a : A)
    (l : list A) :
  imap (fun j => F (i + j)) (a :: l)
  = F i a :: imap (fun j => F (S (i + j))) l.
Proof.
  simpl. rewrite Nat.add_0_r. f_equal. apply imap_ext. intros j b _. simpl.
  rewrite Nat.add_succ_r. reflexivity.
Qed.

(** ** [format_arguments] *)

Section FormatArgumentsFacts.

Context {expr : Type}.
Variable unparse : expr -> string.

Implicit Types (node : arguments expr) (a : arg expr).

Local Abbreviation num_pos node := (length (posonlyargs node ++ args node)).
Local Abbreviation num_posonly node := (length (posonlyargs node)).
Local Abbreviation num_defaults node := (length (defaults node)).
Local Abbreviation frag := (positional_text unparse).

(** The index computed at line 25 is within [defaults] whenever it is
    not negative: the lookup of line 27 never raises. *)
Lemma positional_fragment_Ok node i a :
  (i < num_pos node)%nat ->
  positional_fragment unparse node i a = Ok (frag node i a).
Proof.
  intros Hi. unfold positional_text.
  unfold positional_fragment, positional_default, with_default.
  destruct (Z.leb_spec 0
    (Z.of_nat i - (Z.of_nat (num_pos node) - Z.of_nat (num_defaults node)))%Z)
    as [Hle|Hlt].
  - rewrite decide_True by lia.
    replace (Z.to_nat _) with (i + num_defaults node - num_pos node)%nat
      by lia.
    destruct (lookup_lt_is_Some_2 (defaults node)
                (i + num_defaults node - num_pos node)%nat) as [d Hd];
      [lia|].
    rewrite (getitem_Ok _ _ _ Hd), Hd. reflexivity.
  - rewrite decide_False by lia. reflexivity.
Qed.

(** The loop past the positional-only parameters adds no marker. *)
Lemma positional_loop_args node rest : forall i parts,
  (num_posonly node <= i)%nat ->
  (i + length rest <= num_pos node)%nat ->
  positional_loop unparse node i rest parts
  = Ok (parts ++ imap (fun j => frag node (i + j)) rest).
Proof.
  induction rest as [|a rest IH]; intros i parts Hp Hn.
  - simpl. rewrite app_nil_r. reflexivity.
  - rewrite imap_cons_shift. simpl in Hn. cbn [positional_loop].
    rewrite positional_fragment_Ok by lia. rewrite bind_Ok.
    destruct (Z.eqb_spec (Z.of_nat i) (Z.of_nat (num_posonly node) - 1));
      [lia|].
    cbn [andb]. rewrite IH by lia. rewrite <- app_assoc. reflexivity.
Qed.

(** The loop over positional-only parameters, then the others: the
    marker follows the last positional-only parameter. *)
Lemma positional_loop_posonly node po : forall i parts,
  (i + length po = num_posonly node)%nat ->
  positional_loop unparse node i (po ++ args node) parts
  = Ok (parts ++ imap (fun j => frag node (i + j)) po
          ++ match po with [] => [] | _ :: _ => ["/"] end
          ++ imap (fun j => frag node (num_posonly node + j)) (args node)).
Proof.
  induction po as [|a po IH]; intros i parts Hi.
  - simpl in Hi. rewrite Nat.add_0_r in Hi. rewrite Hi. simpl.
    rewrite positional_loop_args; [reflexivity|lia|].
    rewrite length_app. lia.
  - rewrite imap_cons_shift. simpl in Hi.
    change ((a :: po) ++ args node) with (a :: (po ++ args node)).
    cbn [positional_loop].
    rewrite positional_fragment_Ok by (rewrite length_app; lia).
    rewrite bind_Ok. destruct po as [|b po].
    + simpl in Hi.
      destruct (Z.eqb_spec (Z.of_nat i) (Z.of_nat (num_posonly node) - 1));
        [|lia].
      destruct (Z.ltb_spec 0 (Z.of_nat (num_posonly node))); [|lia].
      cbn [andb app imap]. replace (S i) with (num_posonly node) by lia.
      rewrite positional_loop_args; [|lia|rewrite length_app; lia].
      rewrite <- !app_assoc. reflexivity.
    + destruct (Z.eqb_spec (Z.of_nat i) (Z.of_nat (num_posonly node) - 1));
        [simpl in Hi; lia|].
      cbn [andb]. rewrite IH by (simpl in *; lia).
      rewrite <- !app_assoc. reflexivity.
Qed.

(** The loop over keyword-only parameters pairs each one with the entry
    of [kw_defaults] at its own index. *)
Lemma kwonly_loop_Ok node rest : forall i parts,
  (i + length rest <= length (kw_defaults node))%nat ->
  kwonly_loop unparse node i rest parts
  = Ok (parts ++ imap (fun j => kwonly_text unparse node (i + j)) rest).
Proof.
  induction rest as [|a rest IH]; intros i parts Hn.
  - simpl. rewrite app_nil_r. reflexivity.
  - rewrite imap_cons_shift. simpl in Hn. unfold kwonly_text at 1. cbn [kwonly_loop]. unfold kwonly_fragment.
    destruct (lookup_lt_is_Some_2 (kw_defaults node) i) as [d Hd]; [lia|].
    rewrite (getitem_Ok _ _ _ Hd), bind_Ok, Hd.
    destruct d as [d|]; cbn [default with_default]; rewrite bind_Ok;
      rewrite IH by lia; rewrite <- app_assoc; reflexivity.
Qed.

(** The whole list [parts], by groups, in the order of lines 20-53. *)
Lemma format_arguments_parts_eq node :
  kw_defaults_aligned node ->
  format_arguments_parts unparse node
  = Ok (positional_parts unparse node ++ star_parts unparse node []
          ++ kwonly_parts unparse node ++ kwarg_parts unparse node []).
Proof.
  intros Hkw. unfold format_arguments_parts.
  rewrite (positional_loop_posonly node (posonlyargs node) 0 [])
    by reflexivity.
  rewrite bind_Ok, kwonly_loop_Ok by (rewrite Hkw; simpl; lia).
  rewrite bind_Ok. unfold positional_parts, kwonly_parts. simpl. f_equal.
  assert (Hstar : forall l, star_parts unparse node l
                            = l ++ star_parts unparse node []).
  { intros l. unfold star_parts.
    destruct (vararg node); [reflexivity|].
    destruct (kwonlyargs node); [rewrite app_nil_r|]; reflexivity. }
  assert (Hkwarg : forall l, kwarg_parts unparse node l
                             = l ++ kwarg_parts unparse node []).
  { intros l. unfold kwarg_parts.
    destruct (kwarg node); [|rewrite app_nil_r]; reflexivity. }
  rewrite Hkwarg, Hstar. rewrite <- !app_assoc. reflexivity.
Qed.

End FormatArgumentsFacts.

Section FormatArgumentsClaims.

Context {expr simple : Type}.
Variable unparse : expr -> string.

Implicit Types (node : arguments expr) (a : arg expr).

Local Abbreviation all_pos node := (posonlyargs node ++ args node).
Local Abbreviation num_posonly node := (length (posonlyargs node)).

Lemma positional_parts_length node :
  length (positional_parts unparse node) = star_slot node.
Proof.
  unfold positional_parts, star_slot.
  rewrite !length_app, !length_imap.
  destruct (posonlyargs node); simpl; lia.
Qed.

(** The fragment of the positional parameter at index [i] sits at its
    slot. *)
Lemma positional_parts_lookup node i a :
  all_pos node !! i = Some a ->
  positional_parts unparse node !! positional_slot (num_posonly node) i
  = Some (positional_text unparse node i a).
Proof.
  intros Ha. unfold positional_parts, positional_slot.
  destruct (decide (i < num_posonly node)) as [Hlt|Hge].
  - rewrite decide_False by lia.
    rewrite lookup_app_l in Ha by lia.
    rewrite lookup_app_l by (rewrite length_imap; lia).
    rewrite list_lookup_imap, Ha. reflexivity.
  - rewrite lookup_app_r in Ha by lia.
    assert (Hargs : imap (fun j => positional_text unparse node
                                     (num_posonly node + j)) (args node)
                      !! (i - num_posonly node)
                    = Some (positional_text unparse node i a)).
    { rewrite list_lookup_imap, Ha. simpl. do 2 f_equal. lia. }
    destruct (posonlyargs node) as [|b po] eqn:Hpo;
      rewrite ?Hpo in Hge, Hargs.
    + simpl in *. rewrite Nat.sub_0_r in Hargs. exact Hargs.
    + rewrite decide_True by (simpl in *; lia).
      rewrite lookup_app_r by (rewrite length_imap; lia).
      rewrite length_imap.
      replace (S i - length (b :: po)) with (S (i - length (b :: po)))
        by (simpl in *; lia).
      simpl. exact Hargs.
Qed.

(** The marker sits right after the positional-only parameters. *)
Lemma positional_parts_slash node :
  posonlyargs node <> [] ->
  positional_parts unparse node !! num_posonly node = Some "/".
Proof.
  intros Hpo. unfold positional_parts.
  rewrite lookup_app_r by (rewrite length_imap; lia).
  rewrite length_imap, Nat.sub_diag.
  destruct (posonlyargs node); [congruence|reflexivity].
Qed.

(** A parameter's fragment starts with the first character of its name. *)
Lemma with_default_first_char a d c :
  first_char (arg_name a) = Some c ->
  first_char (with_default unparse a d) = Some c.
Proof.
  intros Hc. unfold with_default, arg_text.
  destruct d, (annotation a); rewrite ?str_app_assoc;
    auto using first_char_app.
Qed.

Lemma is_identifier_first_char (s : string) :
  is_identifier s = true ->
  exists c, first_char s = Some c /\ identifier_start c = true.
Proof.
  destruct s as [|c s]; [discriminate|]. simpl.
  intros [H _]%andb_prop. eauto.
Qed.

(** Under [identifier_names], a parameter's fragment starts as an
    identifier does. *)
Lemma with_default_starts a d :
  is_identifier (arg_name a) = true ->
  starts_as_identifier (with_default unparse a d).
Proof.
  intros (c & Hc & Hs)%is_identifier_first_char.
  exists c. auto using with_default_first_char.
Qed.

Lemma identifier_names_pos node a :
  identifier_names node -> a ∈ all_pos node ->
  is_identifier (arg_name a) = true.
Proof.
  unfold identifier_names. rewrite Forall_forall. intros H Ha.
  apply H. rewrite app_assoc. apply elem_of_app. auto.
Qed.

Lemma identifier_names_kwonly node a :
  identifier_names node -> a ∈ kwonlyargs node ->
  is_identifier (arg_name a) = true.
Proof.
  unfold identifier_names. rewrite Forall_forall. intros H Ha.
  apply H. rewrite !elem_of_app. auto.
Qed.

Lemma identifier_names_vararg node v :
  identifier_names node -> vararg node = Some v ->
  is_identifier (arg_name v) = true.
Proof.
  unfold identifier_names. rewrite Forall_forall. intros H Hv.
  apply H. rewrite !elem_of_app, Hv. simpl. rewrite list_elem_of_singleton.
  auto.
Qed.

(** Every element of the positional group is a parameter or the marker. *)
Lemma positional_parts_elem node x :
  x ∈ positional_parts unparse node ->
  (exists i a, all_pos node !! i = Some a
               /\ x = positional_text unparse node i a)
  \/ (x = "/" /\ posonlyargs node <> []).
Proof.
  unfold positional_parts. rewrite !elem_of_app.
  intros [H|[H|H]].
  - apply elem_of_lookup_imap_1 in H as (i & a & -> & Ha). left.
    exists i, a. split; [|reflexivity]. apply lookup_app_l_Some, Ha.
  - right. destruct (posonlyargs node); [inversion H|].
    apply list_elem_of_singleton in H. split; [exact H|discriminate].
  - apply elem_of_lookup_imap_1 in H as (i & a & -> & Ha). left.
    exists (num_posonly node + i), a. split; [|reflexivity].
    rewrite lookup_app_r by lia.
    replace (num_posonly node + i - num_posonly node) with i by lia.
    exact Ha.
Qed.

Lemma kwonly_parts_elem node x :
  x ∈ kwonly_parts unparse node ->
  exists i a, kwonlyargs node !! i = Some a
              /\ x = kwonly_text unparse node i a.
Proof.
  unfold kwonly_parts. intros H.
  apply elem_of_lookup_imap_1 in H as (i & a & -> & Ha). eauto.
Qed.

(** The one fragment of lines 32-38, when there is one. *)
Lemma star_parts_cases node :
  (exists v, vararg node = Some v
             /\ star_parts unparse node [] = [vararg_text unparse v])
  \/ (vararg node = None /\ kwonlyargs node <> []
      /\ star_parts unparse node [] = ["*"])
  \/ (vararg node = None /\ kwonlyargs node = []
      /\ star_parts unparse node [] = []).
Proof.
  unfold star_parts, vararg_text. destruct (vararg node) as [v|].
  - left. exists v. split; [reflexivity|].
    destruct (annotation v); reflexivity.
  - right. destruct (kwonlyargs node); [right|left]; auto.
Qed.

Lemma vararg_text_first_char v :
  first_char (vararg_text unparse v) = Some "*"%char.
Proof. unfold vararg_text. destruct (annotation v); reflexivity. Qed.

Lemma vararg_text_not_star v :
  is_identifier (arg_name v) = true -> vararg_text unparse v <> "*".
Proof.
  unfold vararg_text. destruct (arg_name v) as [|c s]; [discriminate|].
  intros _. destruct (annotation v); discriminate.
Qed.

(** The fragments after the positional group start with a star or are
    keyword-only parameters. *)
Lemma later_parts_elem node x :
  identifier_names node ->
  x ∈ star_parts unparse node [] ++ kwonly_parts unparse node
        ++ kwarg_parts unparse node [] ->
  starts_as_identifier x
  \/ x ∈ star_parts unparse node []
  \/ (exists r, x = "**" +:+ r).
Proof.
  intros Hid. rewrite !elem_of_app. intros [H|[H|H]].
  - auto.
  - apply kwonly_parts_elem in H as (i & a & Ha & ->). left.
    apply with_default_starts. eapply identifier_names_kwonly; [eauto|].
    eapply list_elem_of_lookup_2, Ha.
  - do 2 right. unfold kwarg_parts in H.
    destruct (kwarg node) as [k|]; [|inversion H]. simpl in H.
    apply list_elem_of_singleton in H. subst x.
    destruct (annotation k); rewrite ?str_app_assoc; eauto.
Qed.

Lemma positional_parts_elem_id node x :
  identifier_names node ->
  x ∈ positional_parts unparse node ->
  starts_as_identifier x \/ (x = "/" /\ posonlyargs node <> []).
Proof.
  intros Hid H.
  apply positional_parts_elem in H as [(i & a & Ha & ->)|H]; [left|auto].
  apply with_default_starts. eapply identifier_names_pos; [eauto|].
  eapply list_elem_of_lookup_2, Ha.
Qed.

Lemma slash_not_identifier : ~ starts_as_identifier "/".
Proof. intros (c & [= <-] & H). discriminate. Qed.

Lemma star_not_identifier : ~ starts_as_identifier "*".
Proof. intros (c & [= <-] & H). discriminate. Qed.

(** No fragment after the positional group is the slash. *)
Lemma slash_not_later node :
  identifier_names node ->
  "/" ∉ star_parts unparse node [] ++ kwonly_parts unparse node
          ++ kwarg_parts unparse node [].
Proof.
  intros Hid H. apply later_parts_elem in H as [H|[H|[r H]]]; [|..|]; trivial.
  - exact (slash_not_identifier H).
  - destruct (star_parts_cases node)
      as [(v & _ & Hs)|[(_ & _ & Hs)|(_ & _ & Hs)]];
      rewrite Hs in H;
      [apply list_elem_of_singleton in H; revert H
      |apply list_elem_of_singleton in H; discriminate
      |inversion H].
    unfold vararg_text. destruct (annotation v); discriminate.
  - discriminate.
Qed.

(** The star, if it stands after the positional group, is the fragment of
    lines 37-38. *)
Lemma star_later node :
  identifier_names node ->
  "*" ∈ star_parts unparse node [] ++ kwonly_parts unparse node
          ++ kwarg_parts unparse node [] ->
  vararg node = None /\ kwonlyargs node <> [].
Proof.
  intros Hid H. apply later_parts_elem in H as [H|[H|[r H]]]; [|..|]; trivial.
  - destruct (star_not_identifier H).
  - destruct (star_parts_cases node)
      as [(v & Hv & Hs)|[(? & ? & _)|(_ & _ & Hs)]]; rewrite ?Hs in H.
    + apply list_elem_of_singleton in H. symmetry in H.
      apply vararg_text_not_star in H; [destruct H|].
      eapply identifier_names_vararg; eauto.
    + auto.
    + inversion H.
  - discriminate.
Qed.

End FormatArgumentsClaims.

(** ** The claims about the signature *)

Section SignatureClaims.

Context {expr : Type}.
Variable unparse : expr -> string.

Implicit Types (node : arguments expr) (a : arg expr).

Local Abbreviation all_pos node := (posonlyargs node ++ args node).
Local Abbreviation num_posonly node := (length (posonlyargs node)).
Local Abbreviation num_pos node := (length (posonlyargs node ++ args node)).
Local Abbreviation num_defaults node := (length (defaults node)).

(** With no more defaults than positional parameters, line 25-27 follows
    the rule of the specification. *)
Lemma positional_default_trailing node i :
  num_defaults node <= num_pos node -> i < num_pos node ->
  positional_default node i = trailing_default node i.
Proof.
  intros Hd Hi. unfold positional_default, trailing_default.
  destruct (decide (num_pos node - num_defaults node <= i)).
  - rewrite decide_True by lia. f_equal. lia.
  - rewrite decide_False by lia. reflexivity.
Qed.

(** What [format_arguments] returns: the fragments joined by a comma and a
    space. *)
Lemma format_arguments_text node :
  kw_defaults_aligned node ->
  format_arguments unparse node
  = Ok (Str.join ", "
          (positional_parts unparse node ++ star_parts unparse node []
             ++ kwonly_parts unparse node ++ kwarg_parts unparse node [])).
Proof.
  intros Hkw. unfold format_arguments.
  rewrite format_arguments_parts_eq by exact Hkw. reflexivity.
Qed.

(** C1: for a parameter list with no more positional defaults than
    positional parameters, the positional parameter at index [i] of the
    combined sequence is rendered with a default iff [i >= n - d], and the
    default is [defaults[i - (n - d)]]; so the [k]-th default goes to the
    parameter at index [n - d + k]: the last [d] parameters, in order. The
    fragments are those that [format_arguments] joins into the text it
    returns. *)
Theorem defaults_align_to_the_end node :
  kw_defaults_aligned node ->
  num_defaults node <= num_pos node ->
  exists parts,
    format_arguments_parts unparse node = Ok parts
    /\ format_arguments unparse node = Ok (Str.join ", " parts)
    /\ (forall i a,
          all_pos node !! i = Some a ->
          parts !! positional_slot (num_posonly node) i
          = Some (with_default unparse a (trailing_default node i))
          /\ (num_pos node - num_defaults node <= i
              <-> parts !! positional_slot (num_posonly node) i
                  <> Some (arg_text unparse a))
          /\ (num_pos node - num_defaults node <= i ->
              exists e,
                defaults node !! (i - (num_pos node - num_defaults node))
                = Some e
                /\ parts !! positional_slot (num_posonly node) i
                   = Some (arg_text unparse a +:+ " = " +:+ unparse e)))
    /\ (forall k e,
          defaults node !! k = Some e ->
          exists a,
            all_pos node !! (num_pos node - num_defaults node + k) = Some a
            /\ parts !! positional_slot (num_posonly node)
                          (num_pos node - num_defaults node + k)
               = Some (arg_text unparse a +:+ " = " +:+ unparse e)).
Proof.
  intros Hkw Hd. pose proof (format_arguments_text node Hkw) as Htext.
  rewrite format_arguments_parts_eq by exact Hkw.
  eexists. split; [reflexivity|]. split; [exact Htext|].
  assert (Hslot : forall i a, all_pos node !! i = Some a ->
    (positional_parts unparse node ++ star_parts unparse node []
       ++ kwonly_parts unparse node ++ kwarg_parts unparse node [])
      !! positional_slot (num_posonly node) i
    = Some (with_default unparse a (trailing_default node i))).
  { intros i a Ha. apply lookup_app_l_Some.
    rewrite (positional_parts_lookup unparse node i a Ha).
    unfold positional_text. rewrite positional_default_trailing; trivial.
    eapply lookup_lt_Some, Ha. }
  assert (Hin : forall i, i < num_pos node ->
    num_pos node - num_defaults node <= i ->
    exists e, defaults node !! (i - (num_pos node - num_defaults node))
              = Some e
              /\ trailing_default node i = Some e).
  { intros i Hi Hle.
    destruct (lookup_lt_is_Some_2 (defaults node)
      (i - (num_pos node - num_defaults node))) as [e He]; [lia|].
    exists e. split; [exact He|]. unfold trailing_default.
    rewrite decide_True by exact Hle. exact He. }
  split.
  - intros i a Ha. pose proof (lookup_lt_Some _ _ _ Ha) as Hi.
    rewrite (Hslot i a Ha). split; [reflexivity|]. split.
    + split.
      * intros Hle. destruct (Hin i Hi Hle) as (e & _ & ->). simpl.
        intros [= H]. revert H. apply str_app_neq. discriminate.
      * intros Hne.
        destruct (decide (num_pos node - num_defaults node <= i));
          [trivial|].
        exfalso. apply Hne. unfold trailing_default.
        rewrite decide_False by trivial. reflexivity.
    + intros Hle. destruct (Hin i Hi Hle) as (e & He & ->). eauto.
  - intros k e He. pose proof (lookup_lt_Some _ _ _ He) as Hk.
    destruct (lookup_lt_is_Some_2 (all_pos node)
      (num_pos node - num_defaults node + k)) as [a Ha]; [lia|].
    exists a. split; [exact Ha|]. rewrite (Hslot _ a Ha).
    unfold trailing_default. rewrite decide_True by lia.
    replace (num_pos node - num_defaults node + k
             - (num_pos node - num_defaults node)) with k by lia.
    rewrite He. reflexivity.
Qed.

(** C6: under identifier names, the fragments that [format_arguments]
    joins into the text it returns hold the bare slash iff there is a
    positional-only parameter; they hold it once, at the index after the
    positional-only parameters, right after the fragment of the last one. *)
Theorem slash_marker node :
  kw_defaults_aligned node ->
  identifier_names node ->
  exists parts,
    format_arguments_parts unparse node = Ok parts
    /\ format_arguments unparse node = Ok (Str.join ", " parts)
    /\ ("/" ∈ parts <-> posonlyargs node <> [])
    /\ (forall j, parts !! j = Some "/" -> j = num_posonly node)
    /\ (forall a,
          last (posonlyargs node) = Some a ->
          parts !! (num_posonly node - 1)
          = Some (positional_text unparse node (num_posonly node - 1) a)
          /\ parts !! num_posonly node = Some "/").
Proof.
  intros Hkw Hid. pose proof (format_arguments_text node Hkw) as Htext.
  rewrite format_arguments_parts_eq by exact Hkw.
  eexists. split; [reflexivity|]. split; [exact Htext|].
  assert (Hright : posonlyargs node <> [] ->
    (positional_parts unparse node ++ star_parts unparse node []
       ++ kwonly_parts unparse node ++ kwarg_parts unparse node [])
      !! num_posonly node = Some "/").
  { intros Hpo. apply lookup_app_l_Some, positional_parts_slash, Hpo. }
  split; [|split].
  - split.
    + intros [H|H]%elem_of_app.
      * apply (positional_parts_elem_id unparse node _ Hid) in H
          as [H|[_ H]]; [destruct (slash_not_identifier H)|exact H].
      * destruct (slash_not_later unparse node Hid H).
    + intros Hpo. eapply list_elem_of_lookup_2, Hright, Hpo.
  - intros j [H|[Hj H]]%lookup_app_Some.
    + unfold positional_parts in H.
      apply lookup_app_Some in H as [H|[Hj H]].
      * apply list_elem_of_lookup_2, elem_of_lookup_imap_1 in H
          as (i & a & Hx & Ha).
        destruct slash_not_identifier. rewrite Hx.
        apply with_default_starts.
        eapply identifier_names_pos; [eauto|].
        apply elem_of_app. left. eapply list_elem_of_lookup_2, Ha.
      * rewrite length_imap in Hj, H.
        apply lookup_app_Some in H as [H|[Hj' H]].
        -- destruct (posonlyargs node) as [|b po]; [inversion H|].
           apply list_lookup_singleton_Some in H as [H _]. lia.
        -- apply list_elem_of_lookup_2, elem_of_lookup_imap_1 in H
             as (i & a & Hx & Ha).
           destruct slash_not_identifier. rewrite Hx.
           apply with_default_starts.
           eapply identifier_names_pos; [eauto|].
           apply elem_of_app. right. eapply list_elem_of_lookup_2, Ha.
    + apply list_elem_of_lookup_2 in H.
      destruct (slash_not_later unparse node Hid H).
  - intros a Ha. split.
    + assert (Hlook : all_pos node !! (num_posonly node - 1) = Some a).
      { apply lookup_app_l_Some. rewrite last_lookup in Ha.
        replace (num_posonly node - 1) with (pred (num_posonly node))
          by lia. exact Ha. }
      apply lookup_app_l_Some.
      rewrite <- (positional_parts_lookup unparse node _ a Hlook).
      unfold positional_slot. rewrite decide_False; [reflexivity|].
      apply lookup_lt_Some in Hlook. destruct (posonlyargs node);
        [discriminate|simpl; lia].
    + apply Hright. intros Hnil. rewrite Hnil in Ha. discriminate.
Qed.

(** C7: under identifier names, the fragments that [format_arguments]
    joins into the text it returns hold the bare star iff there is no
    variadic-positional parameter and there is a keyword-only parameter; it
    then stands right after the positional group, where [*name] stands
    when there is a variadic-positional parameter. *)
Theorem star_marker node :
  kw_defaults_aligned node ->
  identifier_names node ->
  exists parts,
    format_arguments_parts unparse node = Ok parts
    /\ format_arguments unparse node = Ok (Str.join ", " parts)
    /\ ("*" ∈ parts <-> vararg node = None /\ kwonlyargs node <> [])
    /\ (forall j, parts !! j = Some "*" -> j = star_slot node)
    /\ (vararg node = None -> kwonlyargs node <> [] ->
        parts !! star_slot node = Some "*")
    /\ (forall v,
          vararg node = Some v ->
          parts !! star_slot node = Some (vararg_text unparse v)).
Proof.
  intros Hkw Hid. pose proof (format_arguments_text node Hkw) as Htext.
  rewrite format_arguments_parts_eq by exact Hkw.
  eexists. split; [reflexivity|]. split; [exact Htext|].
  assert (Hat : forall x,
    (star_parts unparse node [] ++ kwonly_parts unparse node
       ++ kwarg_parts unparse node []) !! 0 = Some x ->
    (positional_parts unparse node ++ star_parts unparse node []
       ++ kwonly_parts unparse node ++ kwarg_parts unparse node [])
      !! star_slot node = Some x).
  { intros x Hx. rewrite lookup_app_r
      by (rewrite positional_parts_length; lia).
    rewrite positional_parts_length, Nat.sub_diag. exact Hx. }
  assert (Hbare : vararg node = None -> kwonlyargs node <> [] ->
    star_parts unparse node [] = ["*"]).
  { intros Hv Hk. destruct (star_parts_cases unparse node)
      as [(v & Hv' & _)|[(_ & _ & Hs)|(_ & Hk' & _)]];
      [congruence|exact Hs|congruence]. }
  split; [|split; [|split]].
  - split.
    + intros [H|H]%elem_of_app.
      * apply (positional_parts_elem_id unparse node _ Hid) in H
          as [H|[H _]]; [destruct (star_not_identifier H)|discriminate].
      * apply (star_later unparse node Hid H).
    + intros [Hv Hk]. eapply list_elem_of_lookup_2, Hat.
      rewrite (Hbare Hv Hk). reflexivity.
  - intros j [H|[Hj H]]%lookup_app_Some.
    + apply list_elem_of_lookup_2 in H.
      apply (positional_parts_elem_id unparse node _ Hid) in H
        as [H|[H _]]; [destruct (star_not_identifier H)|discriminate].
    + rewrite positional_parts_length in Hj, H.
      pose proof (list_elem_of_lookup_2 _ _ _ H) as Hin.
      apply (star_later unparse node Hid) in Hin as [Hv Hk].
      rewrite (Hbare Hv Hk) in H. simpl in H.
      destruct (j - star_slot node) as [|m] eqn:Hm; [lia|]. simpl in H.
      apply list_elem_of_lookup_2, elem_of_app in H as [H|H].
      * apply kwonly_parts_elem in H as (i & a & Ha & Hx).
        destruct star_not_identifier. rewrite Hx.
        apply with_default_starts.
        eapply identifier_names_kwonly; [eauto|].
        eapply list_elem_of_lookup_2, Ha.
      * unfold kwarg_parts in H.
        destruct (kwarg node) as [k|]; [|inversion H]. simpl in H.
        apply list_elem_of_singleton in H.
        destruct (annotation k); discriminate.
  - intros Hv Hk. apply Hat. rewrite (Hbare Hv Hk). reflexivity.
  - intros v Hv. apply Hat.
    destruct (star_parts_cases unparse node)
      as [(v' & Hv' & Hs)|[(Hv' & _)|(Hv' & _)]]; [|congruence..].
    rewrite Hs. simpl. congruence.
Qed.

(** C8: in the fragments that [format_arguments] joins into the text it
    returns, the keyword-only parameter at index [i] is rendered at the
    [i]-th place after the star fragment, with the entry of [kw_defaults] at
    index [i], shown when it is not [None]; the positional defaults play no
    part in it. *)
Theorem kwonly_defaults_paired node :
  kw_defaults_aligned node ->
  exists parts,
    format_arguments_parts unparse node = Ok parts
    /\ format_arguments unparse node = Ok (Str.join ", " parts)
    /\ forall i a,
         kwonlyargs node !! i = Some a ->
         exists d,
           kw_defaults node !! i = Some d
           /\ parts !! (star_slot node + 1 + i)
              = Some (with_default unparse a d)
           /\ forall ds,
                exists parts',
                  format_arguments_parts unparse (set_defaults node ds)
                  = Ok parts'
                  /\ format_arguments unparse (set_defaults node ds)
                     = Ok (Str.join ", " parts')
                  /\ parts' !! (star_slot node + 1 + i)
                     = Some (with_default unparse a d).
Proof.
  intros Hkw.
  assert (Hlook : forall node' i a d,
    kw_defaults_aligned node' ->
    kwonlyargs node' !! i = Some a -> kw_defaults node' !! i = Some d ->
    (positional_parts unparse node' ++ star_parts unparse node' []
       ++ kwonly_parts unparse node' ++ kwarg_parts unparse node' [])
      !! (star_slot node' + 1 + i) = Some (with_default unparse a d)).
  { intros node' i a d Hkw' Ha Hd.
    rewrite lookup_app_r by (rewrite positional_parts_length; lia).
    rewrite positional_parts_length.
    replace (star_slot node' + 1 + i - star_slot node') with (S i) by lia.
    assert (Hone : exists x, star_parts unparse node' [] = [x]).
    { destruct (star_parts_cases unparse node')
        as [(v & _ & Hs)|[(_ & _ & Hs)|(_ & Hk & _)]]; eauto.
      rewrite Hk in Ha. discriminate. }
    destruct Hone as [x ->]. simpl. apply lookup_app_l_Some.
    unfold kwonly_parts. rewrite list_lookup_imap, Ha. simpl.
    unfold kwonly_text. rewrite Hd. reflexivity. }
  pose proof (format_arguments_text node Hkw) as Htext.
  rewrite format_arguments_parts_eq by exact Hkw.
  eexists. split; [reflexivity|]. split; [exact Htext|]. intros i a Ha.
  destruct (lookup_lt_is_Some_2 (kw_defaults node) i) as [d Hd].
  { rewrite Hkw. eapply lookup_lt_Some, Ha. }
  exists d. split; [exact Hd|]. split; [apply Hlook; trivial|].
  intros ds.
  pose proof (format_arguments_text (set_defaults node ds) Hkw) as Htext'.
  rewrite format_arguments_parts_eq by exact Hkw.
  eexists. split; [reflexivity|]. split; [exact Htext'|].
  apply (Hlook (set_defaults node ds)); trivial.
Qed.

(** The text of an empty list of fragments. *)
Lemma format_arguments_no_parameters
    (kwd : list (option expr)) (ds : list expr) :
  format_arguments unparse (Arguments [] [] None [] kwd None ds)
  = Ok EmptyString.
Proof. reflexivity. Qed.

(** C10: with no parameter of any kind, [format_arguments] returns the
    empty string, and the header line has empty parentheses:
    [def name():] for a plain function with no return annotation. *)
Theorem no_parameters_empty_parentheses {simple : Type}
    (kwd : list (option expr)) (ds : list expr) :
  format_arguments unparse (Arguments [] [] None [] kwd None ds)
  = Ok EmptyString
  /\ (forall name (body : list (stmt expr simple)) decorator_list
             lineno end_lineno indent,
        signature_line unparse false
          (FunctionDefNode name (Arguments [] [] None [] kwd None ds) body
             decorator_list None lineno end_lineno) indent
        = Ok (indent +:+ "def " +:+ name +:+ "():"))
  /\ (forall is_async name (body : list (stmt expr simple)) decorator_list
             returns lineno end_lineno indent,
        signature_line unparse is_async
          (FunctionDefNode name (Arguments [] [] None [] kwd None ds) body
             decorator_list returns lineno end_lineno) indent
        = Ok (indent +:+ (if is_async then "async " else EmptyString)
                +:+ "def " +:+ name +:+ "()"
                +:+ match returns with
                    | Some r => " -> " +:+ unparse r
                    | None => EmptyString
                    end +:+ ":")).
Proof.
  split; [reflexivity|]. split.
  - intros. reflexivity.
  - intros. unfold signature_line. cbn [fn_args fn_name fn_returns].
    rewrite format_arguments_no_parameters, bind_Ok. reflexivity.
Qed.

End SignatureClaims.

(** ** Facts about [rstrip], [endswith] and [split] *)

Lemma all_space_app (s t : string) :
  all_space (s +:+ t) = all_space s && all_space t.
Proof.
  unfold all_space. induction s as [|c s IH]; [reflexivity|].
  rewrite str_app_cons. simpl. rewrite IH, andb_assoc. reflexivity.
Qed.

Lemma rstrip_all_space (s : string) :
  all_space s = true -> Str.rstrip s = EmptyString.
Proof.
  unfold all_space. induction s as [|c s IH]; [reflexivity|]. simpl.
  intros [Hc Hs]%andb_prop. rewrite (IH Hs), Hc. reflexivity.
Qed.

Lemma rstrip_empty (s : string) :
  Str.rstrip s = EmptyString -> all_space s = true.
Proof.
  unfold all_space. induction s as [|c s IH]; [reflexivity|]. simpl.
  destruct (Str.rstrip s) eqn:Hr; simpl.
  - destruct (Str.isspace c); [auto|discriminate].
  - discriminate.
Qed.

(** What [rstrip] removes is whitespace at the end. *)
Lemma rstrip_suffix (s : string) :
  exists w, s = Str.rstrip s +:+ w /\ all_space w = true.
Proof.
  induction s as [|c s (w & Hs & Hw)].
  - exists EmptyString. split; reflexivity.
  - simpl. destruct (Str.is_empty (Str.rstrip s) && Str.isspace c) eqn:Hc.
    + apply andb_prop in Hc as [Hr Hc]. exists (String c s). split.
      * reflexivity.
      * destruct (Str.rstrip s) eqn:E; [|discriminate].
        rewrite str_app_nil_l in Hs. subst w.
        unfold all_space in *. simpl. rewrite Hc, Hw. reflexivity.
    + exists w. split; [|exact Hw]. rewrite str_app_cons. congruence.
Qed.

Lemma rstrip_app_space (s w : string) :
  all_space w = true -> Str.rstrip (s +:+ w) = Str.rstrip s.
Proof.
  intros Hw. induction s as [|c s IH].
  - apply rstrip_all_space, Hw.
  - rewrite str_app_cons. simpl. rewrite IH. reflexivity.
Qed.

Lemma rstrip_app_nonspace (x y : string) :
  Str.rstrip y <> EmptyString -> Str.rstrip (x +:+ y) = x +:+ Str.rstrip y.
Proof.
  intros Hy. induction x as [|c x IH]; [reflexivity|].
  rewrite !str_app_cons. simpl. rewrite IH.
  destruct (x +:+ Str.rstrip y) eqn:Hx; [|reflexivity].
  destruct x; [|discriminate]. rewrite str_app_nil_l in Hx. congruence.
Qed.

Lemma endswith_refl (s : string) : Str.endswith s s = true.
Proof.
  destruct s; cbn [Str.endswith]; rewrite String.eqb_refl; reflexivity.
Qed.

Lemma endswith_app (x z t : string) :
  Str.endswith z t = true -> Str.endswith (x +:+ z) t = true.
Proof.
  intros Hz. induction x as [|c x IH]; [exact Hz|].
  rewrite str_app_cons. cbn [Str.endswith]. rewrite IH. apply orb_true_r.
Qed.

Lemma endswith_suffix (s t : string) :
  Str.endswith s t = true <-> exists x, s = x +:+ t.
Proof.
  split.
  - induction s as [|c s IH]; cbn [Str.endswith].
    + rewrite orb_false_r. intros ->%String.eqb_eq.
      exists EmptyString. reflexivity.
    + intros [->%String.eqb_eq|H]%orb_prop.
      * exists EmptyString. reflexivity.
      * destruct (IH H) as [x ->]. exists (String c x). reflexivity.
  - intros [x ->]. apply endswith_app, endswith_refl.
Qed.

(** The closing quotes hold no newline: they end a string that has one only
    if they end what follows it. *)
Lemma endswith_triple_quote_newline (l r : string) :
  Str.endswith (l +:+ String Str.nl r) Str.triple_quote = true ->
  Str.endswith r Str.triple_quote = true.
Proof.
  induction l as [|c l IH];
    [rewrite str_app_nil_l|rewrite str_app_cons]; cbn [Str.endswith].
  - intros [H|H]%orb_prop; [discriminate|exact H].
  - intros [H|H]%orb_prop; [|auto]. exfalso.
    apply String.eqb_eq in H. unfold Str.triple_quote in H.
    injection H as _ H. destruct l as [|c1 l]; [discriminate|].
    rewrite str_app_cons in H. injection H as _ H.
    destruct l as [|c2 l]; [discriminate|].
    rewrite str_app_cons in H. injection H as _ H.
    destruct l; discriminate.
Qed.

(** The loop of lines 77-81 only appends. *)
Lemma fold_left_docstring_line (indent : string) (ls : list string) :
  forall result,
    fold_left (docstring_line indent) ls result
    = result +:+ continuation indent ls.
Proof.
  induction ls as [|l ls IH]; intros result; simpl.
  - rewrite str_app_nil_r. reflexivity.
  - rewrite IH. unfold docstring_line.
    destruct (negb (Str.is_empty (Str.strip l)));
      rewrite !str_app_assoc; reflexivity.
Qed.

Lemma split_not_nil (sep : ascii) (s : string) : Str.split sep s <> [].
Proof.
  induction s as [|c s IH]; simpl; [discriminate|].
  destruct (Ascii.eqb c sep); [discriminate|].
  destruct (Str.split sep s); [congruence|discriminate].
Qed.

(** Both branches of [_format_docstring] open the block the same way. *)
Lemma format_docstring_opening (doc indent : string) :
  exists rest,
    _format_docstring doc indent = indent +:+ Str.triple_quote +:+ rest.
Proof.
  unfold _format_docstring, docstring_block.
  destruct (length (Str.split Str.nl doc) =? 1); [eauto|].
  rewrite fold_left_docstring_line.
  destruct (negb _); rewrite !str_app_assoc; eauto.
Qed.

(** ** [stub_function] *)

(** When only the last element of a list is [x], [x] is found at the last
    index only. *)
Lemma lookup_last_only {A : Type} (pre : list A) (x : A) (j : nat) :
  x ∉ pre -> (pre ++ [x]) !! j = Some x -> j = length (pre ++ [x]) - 1.
Proof.
  intros Hpre [H|[Hj H]]%lookup_app_Some.
  - destruct Hpre. eapply list_elem_of_lookup_2, H.
  - apply list_lookup_singleton_Some in H as [H _].
    rewrite length_app. simpl. lia.
Qed.

Section FunctionClaims.

Context {expr simple : Type}.
Variable unparse : expr -> string.
Variable constant_str : expr -> option string.

Local Abbreviation function_node := (function_def expr (stmt expr simple)).

Implicit Types (node : function_node).

(** With one entry of [kw_defaults] per keyword-only parameter, the header
    line is built, and it starts with the indent then [async] or [def]. *)
Lemma signature_line_Ok is_async node indent :
  kw_defaults_aligned (fn_args node) ->
  exists sig,
    format_arguments unparse (fn_args node) = Ok sig
    /\ signature_line unparse is_async node indent
       = Ok (indent +:+ (if is_async then "async " else EmptyString)
               +:+ "def " +:+ fn_name node +:+ "(" +:+ sig +:+ ")"
               +:+ match fn_returns node with
                   | Some r => " -> " +:+ unparse r
                   | None => EmptyString
                   end +:+ ":").
Proof.
  intros Hkw. unfold signature_line, format_arguments.
  rewrite format_arguments_parts_eq by exact Hkw. rewrite !bind_Ok.
  eexists. split; reflexivity.
Qed.

(** The placeholder line: the indent, four spaces, three dots. *)
Lemma placeholder_eq (indent : string) :
  (indent +:+ "    ") +:+ "..." = indent +:+ "    ...".
Proof. rewrite str_app_assoc. reflexivity. Qed.

(** The docstring block, trimmed, is not the placeholder line. *)
Lemma docstring_lines_not_placeholder (body : list (stmt expr simple))
    include_docstrings (body_indent : string) :
  body_indent +:+ "..."
  ∉ docstring_lines constant_str body include_docstrings body_indent.
Proof.
  unfold docstring_lines. destruct (truthy _); [|apply not_elem_of_nil].
  intros H%list_elem_of_singleton.
  destruct (format_docstring_opening
    (default EmptyString
       (if include_docstrings then get_docstring constant_str body
        else None)) body_indent) as [rest Hopen].
  destruct (rstrip_suffix (_format_docstring
    (default EmptyString
       (if include_docstrings then get_docstring constant_str body
        else None)) body_indent)) as (w & Hw & _).
  rewrite <- H, Hopen, str_app_assoc in Hw.
  apply str_app_inv_head in Hw. discriminate.
Qed.

Lemma docstring_lines_length (body : list (stmt expr simple))
    include_docstrings (body_indent : string) :
  length (docstring_lines constant_str body include_docstrings body_indent)
  <= 1.
Proof. unfold docstring_lines. destruct (truthy _); simpl; lia. Qed.

(** C9: for a function or async function whose parameter list has one
    entry of [kw_defaults] per keyword-only parameter, the lines of the stub
    are the location comment, the decorators, the header, at most one
    docstring block and the placeholder at one indent level deeper; the
    placeholder is always the last line and no other line is one; the body
    enters the stub through its docstring only. *)
Theorem function_body_elided is_async node source_file indent
    include_docstrings :
  kw_defaults_aligned (fn_args node) ->
  exists header,
    signature_line unparse is_async node indent = Ok header
    /\ stub_function_lines unparse constant_str is_async node source_file
         indent include_docstrings
       = Ok (location_comment indent source_file (fn_lineno node)
               (fn_end_lineno node)
             :: decorator_lines unparse indent (fn_decorator_list node)
             ++ [header]
             ++ docstring_lines constant_str (fn_body node)
                  include_docstrings (indent +:+ "    ")
             ++ [(indent +:+ "    ") +:+ "..."])
    /\ length (docstring_lines constant_str (fn_body node)
                 include_docstrings (indent +:+ "    ")) <= 1
    /\ (forall lines,
          stub_function_lines unparse constant_str is_async node
            source_file indent include_docstrings = Ok lines ->
          stub_function unparse constant_str is_async node source_file
            indent include_docstrings = Ok (Str.join Str.newline lines)
          /\ last lines = Some ((indent +:+ "    ") +:+ "...")
          /\ (forall j,
                lines !! j = Some ((indent +:+ "    ") +:+ "...") ->
                j = length lines - 1)
          /\ (forall body',
                get_docstring constant_str body'
                = get_docstring constant_str (fn_body node) ->
                stub_function_lines unparse constant_str is_async
                  (set_body node body') source_file indent
                  include_docstrings = Ok lines)
          /\ (include_docstrings = false ->
              forall body',
                stub_function_lines unparse constant_str is_async
                  (set_body node body') source_file indent
                  include_docstrings = Ok lines)).
Proof.
  intros Hkw.
  destruct (signature_line_Ok is_async node indent Hkw)
    as (sig & Hsig & Hheader).
  match type of Hheader with _ = Ok ?h => set (header := h) in * end.
  exists header. split; [exact Hheader|].
  assert (Hlines : forall node',
    signature_line unparse is_async node' indent
    = signature_line unparse is_async node indent ->
    fn_lineno node' = fn_lineno node ->
    fn_end_lineno node' = fn_end_lineno node ->
    fn_decorator_list node' = fn_decorator_list node ->
    docstring_lines constant_str (fn_body node') include_docstrings
      (indent +:+ "    ")
    = docstring_lines constant_str (fn_body node) include_docstrings
        (indent +:+ "    ") ->
    stub_function_lines unparse constant_str is_async node' source_file
      indent include_docstrings
    = Ok (location_comment indent source_file (fn_lineno node)
            (fn_end_lineno node)
          :: decorator_lines unparse indent (fn_decorator_list node)
          ++ [header]
          ++ docstring_lines constant_str (fn_body node)
               include_docstrings (indent +:+ "    ")
          ++ [(indent +:+ "    ") +:+ "..."])).
  { intros node' Hs Hl He Hd Hdoc. unfold stub_function_lines.
    rewrite Hs, Hheader, bind_Ok, Hl, He, Hd, Hdoc.
    simpl. rewrite <- !app_assoc. reflexivity. }
  split; [apply Hlines; reflexivity|].
  split; [apply docstring_lines_length|].
  intros lines Hl. rewrite (Hlines node) in Hl by reflexivity.
  injection Hl as <-.
  split; [|split; [|split; [|split]]].
  - unfold stub_function. rewrite (Hlines node) by reflexivity.
    reflexivity.
  - rewrite !app_comm_cons, !app_assoc. apply last_snoc.
  - intros j. rewrite !app_comm_cons, !app_assoc.
    apply lookup_last_only. rewrite placeholder_eq.
    rewrite <- !app_comm_cons, not_elem_of_cons, !not_elem_of_app.
    split; [|split].
    + unfold location_comment. intros H%str_app_inv_head. discriminate.
    + unfold decorator_lines.
      intros (dec & H%str_app_inv_head & _)%list_elem_of_fmap.
      discriminate.
    + apply not_elem_of_cons. split.
      * unfold header. intros H%str_app_inv_head.
        destruct is_async; discriminate.
      * rewrite <- placeholder_eq. apply docstring_lines_not_placeholder.
  - intros body' Hdoc. apply Hlines; try reflexivity.
    unfold docstring_lines. simpl. rewrite Hdoc. reflexivity.
  - intros -> body'. apply Hlines; reflexivity.
Qed.

End FunctionClaims.

(** ** [_is_private] and the members of a class *)

Lemma startswith_prefix (s p : string) :
  Str.startswith s p = true <-> exists rest, s = p +:+ rest.
Proof.
  revert s. induction p as [|b p IH]; intros s.
  - split; [intros _; exists s; reflexivity|].
    destruct s; reflexivity.
  - destruct s as [|a s].
    + split; [discriminate|]. intros [rest H]. discriminate.
    + cbn [Str.startswith]. rewrite andb_true_iff, IH. split.
      * intros [->%Ascii.eqb_eq [rest ->]]. exists rest. reflexivity.
      * intros [rest H]. rewrite str_app_cons in H. injection H as -> ->.
        split; [apply Ascii.eqb_refl|eauto].
Qed.

(** Two lists of lines written with [++] in different ways. *)
Ltac same_lines :=
  unfold mret, result_ret;
  try apply (f_equal (@Ok string)); apply (f_equal (Str.join Str.newline));
  rewrite <- ?app_assoc; cbn [app]; rewrite <- ?app_assoc;
  rewrite ?app_nil_r; reflexivity.

Section ClassClaims.

Context {expr simple : Type}.
Variable unparse : expr -> string.
Variable constant_str : expr -> option string.
Variable get_source_segment : string -> stmt expr simple -> option string.
Variable unparse_stmt : stmt expr simple -> string.

Local Abbreviation class_node := (class_def expr simple).
Local Abbreviation stmt_node := (stmt expr simple).

Implicit Types (node : class_node) (child : stmt_node).

(** A nested function or class is no docstring. *)
Lemma member_not_str_expr child name :
  member_name child = Some name -> is_str_expr constant_str child = None.
Proof. destruct child; try discriminate; reflexivity. Qed.

(** With private filtering enabled, the loop body leaves the state as it
    is at a private member. *)
Lemma class_child_private rec source source_file body_indent
    include_docstrings i child name st :
  member_name child = Some name -> _is_private name = true ->
  class_child unparse constant_str get_source_segment unparse_stmt rec
    source source_file body_indent include_docstrings false i child st
  = Ok st.
Proof.
  intros Hm Hp. unfold class_child. destruct st as [lines has_content].
  rewrite (member_not_str_expr child name Hm). cbn [andb negb].
  rewrite bool_decide_eq_false_2 by (intros [? ?]; discriminate).
  cbn [andb].
  destruct child; try discriminate; injection Hm as Hm;
    rewrite Hm, Hp; reflexivity.
Qed.

(** A statement of another kind leaves the state as it is. *)
Lemma class_child_other rec source source_file body_indent
    include_docstrings include_private i st :
  class_child unparse constant_str get_source_segment unparse_stmt rec
    source source_file body_indent include_docstrings include_private i
    OtherStmt st
  = Ok st.
Proof. destruct st. reflexivity. Qed.

Lemma class_loop_private rec source source_file body_indent
    include_docstrings child name post pre : forall i st,
  member_name child = Some name -> _is_private name = true ->
  class_loop unparse constant_str get_source_segment unparse_stmt rec
    source source_file body_indent include_docstrings false i
    (pre ++ child :: post) st
  = class_loop unparse constant_str get_source_segment unparse_stmt rec
      source source_file body_indent include_docstrings false i
      (pre ++ OtherStmt :: post) st.
Proof.
  intros i st Hm Hp. revert i st.
  induction pre as [|x pre IH]; intros i st.
  - cbn [app class_loop].
    rewrite (class_child_private _ _ _ _ _ _ _ _ _ Hm Hp).
    rewrite class_child_other. reflexivity.
  - cbn [app class_loop].
    destruct (class_child _ _ _ _ _ _ _ _ _ _ _ x st) as [st'|e];
      [|reflexivity].
    rewrite !bind_Ok. apply IH.
Qed.

Lemma get_docstring_member child name pre post :
  member_name child = Some name ->
  get_docstring constant_str (pre ++ child :: post)
  = get_docstring constant_str (pre ++ OtherStmt :: post).
Proof.
  intros Hm. destruct pre; [|reflexivity]. simpl.
  apply (member_not_str_expr child name Hm).
Qed.

(** The loop body adds the same lines and sets the flag in the same way
    whatever the state it starts from. *)
Lemma class_child_state rec source source_file body_indent
    include_docstrings include_private i child st :
  class_child unparse constant_str get_source_segment unparse_stmt rec
    source source_file body_indent include_docstrings include_private i
    child st
  = from_state st
      (class_child unparse constant_str get_source_segment unparse_stmt rec
         source source_file body_indent include_docstrings include_private i
         child ([], false)).
Proof.
  destruct st as [lines hc]. unfold class_child.
  assert (Hsame : @Ok (list string * bool) (lines, hc)
                  = from_state (lines, hc) (Ok ([], false))).
  { unfold from_state. cbn [fst snd].
    rewrite app_nil_r, orb_false_r. reflexivity. }
  assert (Hone : forall x, @Ok (list string * bool) (lines ++ [x], true)
                           = from_state (lines, hc) (Ok ([] ++ [x], true))).
  { intros x. unfold from_state. cbn [fst snd app].
    rewrite orb_true_r. reflexivity. }
  assert (Htwo : forall (r : result string),
            (s ← r; mret (lines ++ [EmptyString] ++ [s], true))
            = from_state (lines, hc)
                (s ← r; mret ([] ++ [EmptyString] ++ [s], true))).
  { intros [s|e]; [|reflexivity]. rewrite !bind_Ok.
    unfold from_state, mret, result_ret.
    cbn [fst snd app]. rewrite orb_true_r. reflexivity. }
  destruct (bool_decide _ && (i =? 0)); [exact Hsame|].
  destruct child; try exact Hsame; try apply Hone;
    destruct (negb include_private && _); try exact Hsame; apply Htwo.
Qed.

Lemma class_loop_state rec source source_file body_indent
    include_docstrings include_private (children : list stmt_node) :
  forall i st,
    class_loop unparse constant_str get_source_segment unparse_stmt rec
      source source_file body_indent include_docstrings include_private i
      children st
    = from_state st
        (class_loop unparse constant_str get_source_segment unparse_stmt rec
           source source_file body_indent include_docstrings include_private
           i children ([], false)).
Proof.
  induction children as [|child children IH]; intros i st.
  - destruct st as [lines hc]. unfold from_state. cbn [class_loop fst snd].
    unfold mret, result_ret. rewrite app_nil_r, orb_false_r. reflexivity.
  - cbn [class_loop]. rewrite class_child_state.
    destruct (class_child _ _ _ _ _ _ _ _ _ _ _ child ([], false))
      as [[added1 flag1]|e]; [|reflexivity].
    unfold from_state at 1. rewrite !bind_Ok.
    rewrite (IH (S i) (added1, flag1)), (IH (S i) (st.1 ++ added1, _)).
    destruct (class_loop _ _ _ _ _ _ _ _ _ _ _ children ([], false))
      as [[added2 flag2]|e]; [|reflexivity].
    unfold from_state. cbn [fst snd].
    rewrite app_assoc, orb_assoc. reflexivity.
Qed.

(** The loop over a body in two parts. *)
Lemma class_loop_app rec source source_file body_indent
    include_docstrings include_private (pre post : list stmt_node) :
  forall i st,
    class_loop unparse constant_str get_source_segment unparse_stmt rec
      source source_file body_indent include_docstrings include_private i
      (pre ++ post) st
    = (st' ← class_loop unparse constant_str get_source_segment unparse_stmt
               rec source source_file body_indent include_docstrings
               include_private i pre st;
       class_loop unparse constant_str get_source_segment unparse_stmt rec
         source source_file body_indent include_docstrings include_private
         (i + length pre) post st').
Proof.
  induction pre as [|x pre IH]; intros i st.
  - cbn [app class_loop length]. unfold mret, result_ret.
    rewrite bind_Ok, Nat.add_0_r. reflexivity.
  - cbn [app class_loop length].
    destruct (class_child _ _ _ _ _ _ _ _ _ _ _ x st) as [st1|e];
      [|reflexivity].
    rewrite !bind_Ok, IH. replace (S i + length pre) with (i + S (length pre))
      by lia. reflexivity.
Qed.

(** A member that is not filtered out adds a blank line and its stub. *)
Lemma class_child_member rec source source_file body_indent
    include_docstrings include_private i child name r :
  member_name child = Some name ->
  negb include_private && _is_private name = false ->
  member_stub unparse constant_str rec source_file body_indent
    include_docstrings child = Some r ->
  class_child unparse constant_str get_source_segment unparse_stmt rec
    source source_file body_indent include_docstrings include_private i
    child ([], false)
  = (s ← r; mret ([EmptyString; s], true)).
Proof.
  intros Hm Hp Hr. unfold class_child.
  rewrite (member_not_str_expr child name Hm).
  rewrite bool_decide_eq_false_2 by (intros [? ?]; discriminate).
  cbn [andb].
  destruct child; try discriminate; injection Hm as Hm;
    injection Hr as <-; rewrite Hm, Hp; reflexivity.
Qed.

(** The loop over a body with a member that is not filtered out: the lines
    of the statements before it, a blank line and its stub, and the lines
    of the statements after it. *)
Lemma class_loop_member rec source source_file body_indent
    include_docstrings include_private (pre post : list stmt_node)
    child name r lines has_content :
  member_name child = Some name ->
  negb include_private && _is_private name = false ->
  member_stub unparse constant_str rec source_file body_indent
    include_docstrings child = Some r ->
  class_loop unparse constant_str get_source_segment unparse_stmt rec
    source source_file body_indent include_docstrings include_private 0
    (pre ++ child :: post) (lines, has_content)
  = (st1 ← class_loop unparse constant_str get_source_segment unparse_stmt
              rec source source_file body_indent include_docstrings
              include_private 0 pre ([], false);
     s ← r;
     st2 ← class_loop unparse constant_str get_source_segment unparse_stmt
              rec source source_file body_indent include_docstrings
              include_private (S (length pre)) post ([], false);
     mret (lines ++ st1.1 ++ [EmptyString; s] ++ st2.1, true)).
Proof.
  intros Hm Hp Hr. rewrite class_loop_state, class_loop_app.
  destruct (class_loop _ _ _ _ _ _ _ _ _ _ _ pre ([], false))
    as [[before flag1]|e]; [|reflexivity].
  rewrite !bind_Ok. cbn [class_loop Nat.add].
  rewrite class_child_state, (class_child_member _ _ _ _ _ _ _ _ _ _ Hm Hp Hr).
  destruct r as [s|e]; [|reflexivity].
  rewrite !bind_Ok. unfold from_state at 2. unfold mret at 1, result_ret.
  rewrite bind_Ok, class_loop_state.
  destruct (class_loop _ _ _ _ _ _ _ _ _ _ _ post ([], false))
    as [[after flag2]|e]; [|reflexivity].
  rewrite bind_Ok. unfold from_state, mret, result_ret. cbn [fst snd].
  rewrite orb_true_r, orb_true_l, orb_true_r, <- !app_assoc.
  reflexivity.
Qed.

(** C5: [_is_private] holds of a name iff it starts with an underscore and
    does not both start and end with two underscores; [_helper] is
    private and [__init__], [__eq__] and [helper] are not. With private
    filtering enabled a private member of a class leaves in the stub what
    a statement of no rendered kind leaves, nothing; a member that is not
    private is retained: what [stub_class] returns is the head lines, the
    docstring, the lines of the statements before the member, a blank line
    and the stub of the member, and the lines of the statements after it,
    and it returns that text exactly when the statements before, the member
    and the statements after are rendered. The stub of [sample_class] has
    [__init__], [helper] and [__eq__] and no [_helper]. Inside the loop, a
    function member that is not private is rendered after a blank line. *)
Theorem private_members_filtered :
  (forall name,
     _is_private name = true
     <-> (exists rest, name = "_" +:+ rest)
         /\ ~ ((exists rest, name = "__" +:+ rest)
               /\ (exists front, name = front +:+ "__")))
  /\ _is_private "_helper" = true
  /\ _is_private "__init__" = false
  /\ _is_private "__eq__" = false
  /\ _is_private "helper" = false
  /\ (forall node child name pre post source source_file indent
             include_docstrings,
        cls_body node = pre ++ child :: post ->
        member_name child = Some name ->
        _is_private name = true ->
        stub_class unparse constant_str get_source_segment unparse_stmt
          node source source_file indent include_docstrings false
        = stub_class unparse constant_str get_source_segment unparse_stmt
            (set_class_body node (pre ++ OtherStmt :: post))
            source source_file indent include_docstrings false)
  /\ (forall node child name pre post source source_file indent
             include_docstrings r,
        cls_body node = pre ++ child :: post ->
        member_name child = Some name ->
        _is_private name = false ->
        let rec := fun c ind =>
          stub_class unparse constant_str get_source_segment unparse_stmt
            c source source_file ind include_docstrings false in
        let body_indent := indent +:+ "    " in
        member_stub unparse constant_str rec source_file body_indent
          include_docstrings child = Some r ->
        stub_class unparse constant_str get_source_segment unparse_stmt
          node source source_file indent include_docstrings false
        = (st1 ← class_loop unparse constant_str get_source_segment
                    unparse_stmt rec source source_file body_indent
                    include_docstrings false 0 pre ([], false);
           s ← r;
           st2 ← class_loop unparse constant_str get_source_segment
                    unparse_stmt rec source source_file body_indent
                    include_docstrings false (S (length pre)) post
                    ([], false);
           mret (Str.join Str.newline
                   (class_head_lines unparse node source_file indent
                    ++ docstring_lines constant_str (cls_body node)
                         include_docstrings body_indent
                    ++ st1.1 ++ [EmptyString; s] ++ st2.1))))
  /\ stub_class id Some (fun _ _ => None) (fun _ => EmptyString)
       sample_class "src" "m.py" EmptyString true false
     = Ok (Str.join Str.newline
             ["# m.py:1-9";
              "class C:";
              "";
              "    # m.py:2-3";
              "    def __init__(self):";
              "        ...";
              "";
              "    # m.py:6-7";
              "    def helper(self):";
              "        ...";
              "";
              "    # m.py:8-9";
              "    def __eq__(self):";
              "        ..."])
  /\ (forall rec f is_async source source_file body_indent
             include_docstrings i lines has_content,
        _is_private (fn_name f) = false ->
        class_child unparse constant_str get_source_segment unparse_stmt
          rec source source_file body_indent include_docstrings false i
          (if is_async : bool then AsyncFunctionDef f else FunctionDef f)
          (lines, has_content)
        = (s ← stub_function unparse constant_str is_async f source_file
                 body_indent include_docstrings;
           mret (lines ++ [EmptyString] ++ [s], true))).
Proof.
  split; [|split; [|split; [|split; [|split; [|split; [|split; [|split]]]]]]];
    try reflexivity.
  - intros name. unfold _is_private.
    rewrite andb_true_iff, negb_true_iff. split.
    + intros [Hs Hn]. split; [apply startswith_prefix, Hs|].
      intros [Hb He]. apply startswith_prefix in Hb.
      apply endswith_suffix in He. rewrite Hb, He in Hn. discriminate.
    + intros [Hs Hn]. split; [apply startswith_prefix, Hs|].
      destruct (Str.startswith name "__") eqn:Hb; [|reflexivity].
      destruct (Str.endswith name "__") eqn:He; [|reflexivity].
      destruct Hn. split;
        [apply startswith_prefix, Hb|apply endswith_suffix, He].
  - intros node child name pre post source source_file indent
      include_docstrings Hbody Hm Hp.
    destruct node as [cname bases keywords body decorator_list l1 l2].
    simpl in Hbody. subst body. unfold set_class_body.
    cbn [stub_class cls_body cls_name cls_bases cls_keywords
         cls_decorator_list cls_lineno cls_end_lineno].
    unfold docstring_lines.
    rewrite (get_docstring_member child name pre post Hm).
    rewrite (class_loop_private _ _ _ _ _ _ _ _ _ _ _ Hm Hp).
    reflexivity.
  - intros node child name pre post source source_file indent
      include_docstrings r Hbody Hm Hp rec body_indent Hr.
    destruct node as [cname bases keywords body decorator_list l1 l2].
    cbn [cls_body] in Hbody. subst body. unfold class_head_lines.
    cbn [stub_class cls_body cls_name cls_bases cls_keywords
         cls_decorator_list cls_lineno cls_end_lineno].
    fold rec. fold body_indent.
    rewrite (class_loop_member rec source source_file body_indent
               include_docstrings false pre post child name r _ _ Hm Hp Hr).
    destruct (class_loop _ _ _ _ _ _ _ _ _ _ _ pre ([], false))
      as [[before flag1]|e]; [|reflexivity].
    rewrite !bind_Ok. destruct r as [s|e]; [|reflexivity].
    rewrite !bind_Ok.
    destruct (class_loop _ _ _ _ _ _ _ _ _ _ _ post ([], false))
      as [[after flag2]|e]; [|reflexivity].
    rewrite !bind_Ok. cbn [negb fst snd]. same_lines.
  - intros rec f is_async source source_file body_indent
      include_docstrings i lines has_content Hp.
    unfold class_child. destruct is_async; cbn [is_str_expr];
      rewrite bool_decide_eq_false_2 by (intros [? ?]; discriminate);
      cbn [andb negb]; rewrite Hp; reflexivity.
Qed.

End ClassClaims.

(** The class [sample_class], rendered with private filtering enabled. *)
Example sample_class_stub :
  stub_class id Some (fun _ _ => None) (fun _ => EmptyString)
    sample_class "src" "m.py" EmptyString true false
  = Ok (Str.join Str.newline
          ["# m.py:1-9";
           "class C:";
           "";
           "    # m.py:2-3";
           "    def __init__(self):";
           "        ...";
           "";
           "    # m.py:6-7";
           "    def helper(self):";
           "        ...";
           "";
           "    # m.py:8-9";
           "    def __eq__(self):";
           "        ..."]).
Proof. vm_compute. reflexivity. Qed.

(** ** The order of [str] and of tuples of [str] *)

Lemma N_of_ascii_inj (a b : ascii) : N_of_ascii a = N_of_ascii b -> a = b.
Proof.
  intros H. rewrite <- (ascii_N_embedding a), <- (ascii_N_embedding b), H.
  reflexivity.
Qed.

Lemma str_ltb_cons (a b : ascii) (s t : string) :
  Str.ltb (String a s) (String b t) = true
  <-> (N_of_ascii a < N_of_ascii b)%N
      \/ (a = b /\ Str.ltb s t = true).
Proof.
  cbn [Str.ltb]. rewrite orb_true_iff, andb_true_iff, N.ltb_lt, N.eqb_eq.
  split; intros [H|[H1 H2]]; auto.
  - right. split; [apply N_of_ascii_inj, H1|exact H2].
  - subst b. auto.
Qed.

Lemma str_ltb_irrefl (s : string) : Str.ltb s s = false.
Proof.
  induction s as [|c s IH]; [reflexivity|].
  apply not_true_iff_false. rewrite str_ltb_cons. intros [H|[_ H]]; [lia|].
  congruence.
Qed.

Lemma str_ltb_trans (s t u : string) :
  Str.ltb s t = true -> Str.ltb t u = true -> Str.ltb s u = true.
Proof.
  revert t u. induction s as [|a s IH]; intros [|b t] [|c u];
    try discriminate; try reflexivity.
  rewrite !str_ltb_cons. intros [H1|[-> H1]] [H2|[-> H2]]; eauto.
  left. lia.
Qed.

Lemma str_ltb_total (s t : string) :
  Str.ltb s t = false -> Str.ltb t s = false -> s = t.
Proof.
  revert t. induction s as [|a s IH]; intros [|b t];
    try discriminate; try reflexivity.
  rewrite <- !not_true_iff_false, !str_ltb_cons. intros H1 H2.
  destruct (N.lt_trichotomy (N_of_ascii a) (N_of_ascii b)) as [H|[H|H]].
  - destruct H1. auto.
  - apply N_of_ascii_inj in H. subst b. f_equal. apply IH.
    + apply not_true_iff_false. intros H. apply H1. auto.
    + apply not_true_iff_false. intros H. apply H2. auto.
  - destruct H2. auto.
Qed.

Lemma tuple_ltb_cons (x y : string) (k1 k2 : list string) :
  tuple_ltb (x :: k1) (y :: k2) = true
  <-> Str.ltb x y = true \/ (x = y /\ tuple_ltb k1 k2 = true).
Proof.
  cbn [tuple_ltb]. destruct (String.eqb_spec x y) as [->|Hne].
  - rewrite str_ltb_irrefl. split; [auto|]. intros [H|[_ H]]; [discriminate|].
    exact H.
  - split; [auto|]. intros [H|[H _]]; [exact H|contradiction].
Qed.

Lemma tuple_ltb_irrefl (k : list string) : tuple_ltb k k = false.
Proof.
  induction k as [|x k IH]; [reflexivity|].
  apply not_true_iff_false. rewrite tuple_ltb_cons.
  rewrite str_ltb_irrefl. intros [H|[_ H]]; congruence.
Qed.

Lemma tuple_ltb_trans (k1 k2 k3 : list string) :
  tuple_ltb k1 k2 = true -> tuple_ltb k2 k3 = true ->
  tuple_ltb k1 k3 = true.
Proof.
  revert k2 k3. induction k1 as [|x k1 IH]; intros [|y k2] [|z k3];
    try discriminate; try reflexivity.
  rewrite !tuple_ltb_cons. intros [H1|[-> H1]] [H2|[-> H2]]; eauto.
  left. eapply str_ltb_trans; eauto.
Qed.

Lemma tuple_ltb_total (k1 k2 : list string) :
  tuple_ltb k1 k2 = false -> tuple_ltb k2 k1 = false -> k1 = k2.
Proof.
  revert k2. induction k1 as [|x k1 IH]; intros [|y k2];
    try discriminate; try reflexivity.
  rewrite <- !not_true_iff_false, !tuple_ltb_cons. intros H1 H2.
  assert (x = y) as ->.
  { apply str_ltb_total; apply not_true_iff_false; auto. }
  f_equal. apply IH; apply not_true_iff_false; auto.
Qed.

(** Two keys with a common front compare as what follows it. *)
Lemma tuple_ltb_app (d k1 k2 : list string) :
  tuple_ltb (d ++ k1) (d ++ k2) = tuple_ltb k1 k2.
Proof.
  induction d as [|x d IH]; [reflexivity|]. simpl.
  rewrite String.eqb_refl. exact IH.
Qed.

(** ** [sorted] *)

Section Sorted.

Context {A : Type}.

Implicit Types (x : list string * A) (l : list (list string * A)).

Lemma key_le_trans x y z : key_le x y -> key_le y z -> key_le x z.
Proof.
  unfold key_le. intros Hxy Hyz.
  destruct (tuple_ltb (fst z) (fst x)) eqn:Hzx; [|reflexivity].
  destruct (tuple_ltb (fst x) (fst y)) eqn:Hxy'.
  - rewrite (tuple_ltb_trans _ _ _ Hzx Hxy') in Hyz. discriminate.
  - rewrite (tuple_ltb_total _ _ Hxy' Hxy) in Hzx. congruence.
Qed.

Lemma key_lt_le x y : tuple_ltb (fst x) (fst y) = true -> key_le x y.
Proof.
  unfold key_le. intros Hxy.
  destruct (tuple_ltb (fst y) (fst x)) eqn:Hyx; [|reflexivity].
  pose proof (tuple_ltb_trans _ _ _ Hxy Hyx) as H.
  rewrite tuple_ltb_irrefl in H. discriminate.
Qed.

Lemma sorted_insert_perm x l : sorted_insert x l ≡ₚ x :: l.
Proof.
  induction l as [|y l IH]; simpl; [reflexivity|].
  destruct (tuple_ltb (fst y) (fst x)); [|reflexivity].
  rewrite IH. apply perm_swap.
Qed.

Lemma sorted_keyed_perm l : sorted_keyed l ≡ₚ l.
Proof.
  induction l as [|x l IH]; simpl; [reflexivity|].
  rewrite sorted_insert_perm, IH. reflexivity.
Qed.

Lemma sorted_insert_sorted x l :
  StronglySorted key_le l -> StronglySorted key_le (sorted_insert x l).
Proof.
  induction l as [|y l IH]; simpl; intros Hl.
  - repeat constructor.
  - apply StronglySorted_cons in Hl as [Hy Hl].
    destruct (tuple_ltb (fst y) (fst x)) eqn:Hyx.
    + apply StronglySorted_cons. split; [|auto].
      rewrite sorted_insert_perm. constructor; [|exact Hy].
      apply key_lt_le, Hyx.
    + apply StronglySorted_cons. split.
      * constructor; [exact Hyx|].
        eapply Forall_impl; [exact Hy|]. intros z Hz.
        eapply key_le_trans; [exact Hyx|exact Hz].
      * apply StronglySorted_cons. auto.
Qed.

Lemma sorted_keyed_sorted l : StronglySorted key_le (sorted_keyed l).
Proof.
  induction l as [|x l IH]; simpl; [constructor|].
  apply sorted_insert_sorted, IH.
Qed.

(** In a list in order, an earlier element does not come after a later
    one. *)
Lemma sorted_lookup l i j x y :
  StronglySorted key_le l -> i < j ->
  l !! i = Some x -> l !! j = Some y -> key_le x y.
Proof.
  intros Hl Hij Hx Hy.
  rewrite <- (take_drop_middle l i x Hx) in Hl, Hy.
  apply StronglySorted_app_1_r, StronglySorted_cons in Hl as [Hl _].
  apply lookup_lt_Some in Hx as Hi.
  rewrite lookup_app_r in Hy by (rewrite length_take; lia).
  rewrite length_take, Nat.min_l in Hy by lia.
  destruct (j - i) as [|m] eqn:Hm; [lia|]. simpl in Hy.
  rewrite Forall_forall in Hl. eapply Hl, list_elem_of_lookup_2, Hy.
Qed.

End Sorted.

Lemma mapM_Ok {A B : Type} (f : A -> result B) (l : list A) :
  forall k, mapM f l = Ok k -> Forall2 (fun x y => f x = Ok y) l k.
Proof.
  induction l as [|x l IH]; simpl; intros k.
  - intros [= <-]. constructor.
  - destruct (f x) as [y|e] eqn:Hx; [|discriminate]. rewrite bind_Ok.
    destruct (mapM f l) as [k'|e]; [|discriminate]. rewrite bind_Ok.
    intros [= <-]. constructor; auto.
Qed.

Lemma mapM_Ok_fmap {A B : Type} (f : A -> result B) (l : list A) (k : list B) :
  Forall2 (fun x y => f x = Ok y) l k -> mapM f l = Ok k.
Proof.
  induction 1 as [|x y l k Hx _ IH]; simpl; [reflexivity|].
  rewrite Hx, bind_Ok, IH. reflexivity.
Qed.

(** ** [_format_docstring] *)

Local Abbreviation ends_quoted s :=
  (Str.endswith (Str.rstrip s) Str.triple_quote = true).

Lemma all_space_lstrip (s : string) : all_space (Str.lstrip s) = all_space s.
Proof.
  unfold all_space. induction s as [|c s IH]; [reflexivity|]. simpl.
  destruct (Str.isspace c) eqn:Hc; [exact IH|].
  simpl. rewrite Hc. reflexivity.
Qed.

Lemma is_empty_rstrip (s : string) :
  Str.is_empty (Str.rstrip s) = all_space s.
Proof.
  destruct (all_space s) eqn:Hs.
  - rewrite rstrip_all_space by exact Hs. reflexivity.
  - destruct (Str.rstrip s) eqn:Hr; [|reflexivity].
    rewrite (rstrip_empty s Hr) in Hs. discriminate.
Qed.

(** [line.strip()] is empty iff the line is whitespace only. *)
Lemma is_empty_strip (s : string) :
  Str.is_empty (Str.strip s) = all_space s.
Proof. unfold Str.strip. rewrite is_empty_rstrip. apply all_space_lstrip. Qed.

Lemma rstrip_nonspace (s : string) :
  all_space s = false -> Str.rstrip s <> EmptyString.
Proof. intros Hs Hr. rewrite (rstrip_empty s Hr) in Hs. discriminate. Qed.

Lemma ends_quoted_nonspace (s : string) : ends_quoted s -> all_space s = false.
Proof.
  intros H. destruct (all_space s) eqn:Hs; [|reflexivity].
  rewrite rstrip_all_space in H by exact Hs. discriminate.
Qed.

(** Text before and whitespace after keep a block ending with the quotes. *)
Lemma ends_quoted_app (x s w : string) :
  ends_quoted s -> all_space w = true -> ends_quoted (x +:+ s +:+ w).
Proof.
  intros Hs Hw. rewrite <- str_app_assoc, rstrip_app_space by exact Hw.
  rewrite rstrip_app_nonspace
    by (apply rstrip_nonspace, ends_quoted_nonspace, Hs).
  apply endswith_app, Hs.
Qed.

Lemma ends_quoted_triple_quote_newline (x : string) :
  ends_quoted (x +:+ Str.triple_quote +:+ Str.newline).
Proof. apply ends_quoted_app; reflexivity. Qed.

(** A whitespace-only run of lines is rendered as line breaks. *)
Lemma continuation_all_space (indent : string) (ls : list string) :
  all_space (unlines ls) = true -> all_space (continuation indent ls) = true.
Proof.
  induction ls as [|l ls IH]; [reflexivity|]. cbn [unlines continuation].
  rewrite !all_space_app. intros [Hl [_ Hls]%andb_prop]%andb_prop.
  rewrite is_empty_strip, Hl. cbn [negb]. rewrite (IH Hls).
  reflexivity.
Qed.

(** After a line break, the quotes end the text iff they end what follows. *)
Lemma ends_quoted_after_newline (l t : string) :
  all_space t = false ->
  ends_quoted (l +:+ Str.newline +:+ t) -> ends_quoted t.
Proof.
  intros Ht. rewrite <- str_app_assoc.
  rewrite rstrip_app_nonspace by (apply rstrip_nonspace, Ht).
  rewrite str_app_assoc. apply endswith_triple_quote_newline.
Qed.

Lemma ends_quoted_before_space (l w : string) :
  all_space w = true -> ends_quoted (l +:+ w) -> ends_quoted l.
Proof. intros Hw. rewrite rstrip_app_space by exact Hw. trivial. Qed.

(** Re-indenting lines that end with the quotes gives text that does. *)
Lemma continuation_ends_quoted (indent : string) (ls : list string) :
  forall p,
    ends_quoted (unlines ls) -> ends_quoted (p +:+ continuation indent ls).
Proof.
  induction ls as [|l ls IH]; intros p H; [discriminate|].
  cbn [unlines] in H. cbn [continuation].
  destruct (all_space (unlines ls)) eqn:Hls.
  - assert (Hl : ends_quoted l).
    { apply (ends_quoted_before_space l (Str.newline +:+ unlines ls));
        [rewrite all_space_app, Hls; reflexivity|exact H]. }
    rewrite is_empty_strip, (ends_quoted_nonspace l Hl). cbn [negb].
    rewrite !str_app_assoc, <- (str_app_assoc p indent).
    apply ends_quoted_app; [exact Hl|].
    rewrite all_space_app, (continuation_all_space indent ls Hls).
    reflexivity.
  - rewrite <- str_app_assoc. apply IH.
    apply (ends_quoted_after_newline l _ Hls H).
Qed.

(** The block of lines 76-81 ends with the quotes when its lines do. *)
Lemma docstring_block_ends_quoted (indent l0 : string) (ls : list string) :
  ends_quoted (unlines (l0 :: ls)) ->
  ends_quoted (docstring_block (l0 :: ls) indent).
Proof.
  intros H. unfold docstring_block. cbn [head tail default from_option].
  rewrite fold_left_docstring_line. cbn [unlines] in H.
  destruct (all_space (unlines ls)) eqn:Hls.
  - assert (Hl : ends_quoted l0).
    { apply (ends_quoted_before_space l0 (Str.newline +:+ unlines ls));
        [rewrite all_space_app, Hls; reflexivity|exact H]. }
    rewrite !str_app_assoc, <- (str_app_assoc indent Str.triple_quote).
    apply ends_quoted_app; [exact Hl|].
    rewrite all_space_app, (continuation_all_space indent ls Hls).
    reflexivity.
  - apply continuation_ends_quoted.
    apply (ends_quoted_after_newline l0 _ Hls H).
Qed.

(** [split] and [join] on line breaks. *)
Lemma join_cons (sep x : string) (l : list string) :
  l <> [] -> Str.join sep (x :: l) = x +:+ sep +:+ Str.join sep l.
Proof. destruct l; [congruence|reflexivity]. Qed.

Lemma join_split (sep : ascii) (s : string) :
  Str.join (String sep EmptyString) (Str.split sep s) = s.
Proof.
  induction s as [|c s IH]; [reflexivity|]. simpl.
  destruct (Ascii.eqb_spec c sep) as [->|Hne].
  - rewrite join_cons by apply split_not_nil. rewrite IH. reflexivity.
  - destruct (Str.split sep s) as [|l ls] eqn:Hs;
      [destruct (split_not_nil sep s Hs)|].
    destruct ls as [|l' ls].
    + simpl in *. congruence.
    + rewrite join_cons by discriminate. rewrite join_cons in IH
        by discriminate. rewrite str_app_cons, IH. reflexivity.
Qed.

Lemma unlines_join (ls : list string) :
  ls <> [] -> unlines ls = Str.join Str.newline ls +:+ Str.newline.
Proof.
  induction ls as [|l ls IH]; [congruence|]. intros _. simpl unlines.
  destruct ls as [|l' ls]; [reflexivity|].
  rewrite join_cons by discriminate. rewrite IH by discriminate.
  rewrite !str_app_assoc. reflexivity.
Qed.

Lemma count_newlines_app (s t : string) :
  count_newlines (s +:+ t) = count_newlines s + count_newlines t.
Proof.
  induction s as [|c s IH]; [reflexivity|].
  rewrite str_app_cons. simpl. rewrite IH. lia.
Qed.

Lemma split_length (s : string) :
  length (Str.split Str.nl s) = S (count_newlines s).
Proof.
  induction s as [|c s IH]; [reflexivity|]. simpl.
  destruct (Ascii.eqb c Str.nl); simpl; [rewrite IH; reflexivity|].
  destruct (Str.split Str.nl s); simpl in *; lia.
Qed.

Lemma count_newlines_continuation (indent : string) (ls : list string) :
  length ls <= count_newlines (continuation indent ls).
Proof.
  induction ls as [|l ls IH]; simpl; [lia|].
  destruct (negb _); rewrite !count_newlines_app; simpl; lia.
Qed.

Lemma count_newlines_block (indent : string) (lines : list string) :
  length lines <= count_newlines (docstring_block lines indent).
Proof.
  unfold docstring_block. rewrite fold_left_docstring_line.
  rewrite !count_newlines_app.
  pose proof (count_newlines_continuation indent (tail lines)).
  destruct lines; simpl in *; lia.
Qed.

(** Formatting adds at least one line break to any text. *)
Lemma format_docstring_more_newlines (doc indent : string) :
  count_newlines doc < count_newlines (_format_docstring doc indent).
Proof.
  unfold _format_docstring.
  destruct (length (Str.split Str.nl doc) =? 1).
  - rewrite !count_newlines_app. simpl. lia.
  - pose proof (count_newlines_block indent (Str.split Str.nl doc)) as H.
    rewrite split_length in H.
    destruct (negb _); rewrite ?count_newlines_app; lia.
Qed.

(** The formatted block, trimmed, always ends with three double quotes. *)
Lemma format_docstring_ends_quoted (doc indent : string) :
  ends_quoted (_format_docstring doc indent).
Proof.
  unfold _format_docstring.
  destruct (length (Str.split Str.nl doc) =? 1).
  - rewrite <- !str_app_assoc, !str_app_assoc.
    rewrite <- (str_app_assoc indent), <- (str_app_assoc (indent +:+ _)).
    apply ends_quoted_triple_quote_newline.
  - destruct (Str.endswith (Str.rstrip (docstring_block _ indent))
                Str.triple_quote) eqn:H; simpl; [exact H|].
    rewrite <- str_app_assoc. apply ends_quoted_triple_quote_newline.
Qed.

(** Formatting the one-line docstring [a] twice does not give what
    formatting it once gives: the block is opened a second time. *)
Lemma format_docstring_not_idempotent :
  _format_docstring (_format_docstring "a" EmptyString) EmptyString
  <> _format_docstring "a" EmptyString.
Proof. vm_compute. discriminate. Qed.

(** C3, as amended: formatting is not idempotent. Formatting a formatted
    block again adds at least one line break, so it never gives the block
    back; it takes the multi-line branch, and since the block, trimmed,
    already ends with three double quotes, what it returns is the re-indented
    block of lines 76-81 with no further closing line. *)
Theorem format_docstring_again (doc indent : string) :
  count_newlines (_format_docstring doc indent)
  < count_newlines (_format_docstring (_format_docstring doc indent) indent)
  /\ _format_docstring (_format_docstring doc indent) indent
     <> _format_docstring doc indent
  /\ Str.endswith (Str.rstrip (_format_docstring doc indent))
       Str.triple_quote = true
  /\ _format_docstring (_format_docstring doc indent) indent
     = docstring_block (Str.split Str.nl (_format_docstring doc indent))
         indent.
Proof.
  pose proof (format_docstring_more_newlines
                (_format_docstring doc indent) indent) as Hmore.
  pose proof (format_docstring_more_newlines doc indent) as Hone.
  pose proof (format_docstring_ends_quoted doc indent) as Hq.
  split; [exact Hmore|]. split; [intros H; rewrite H in Hmore; lia|].
  split; [exact Hq|].
  set (block := _format_docstring doc indent) in *.
  unfold _format_docstring at 1.
  pose proof (split_length block) as Hlen.
  destruct (Nat.eqb_spec (length (Str.split Str.nl block)) 1) as [H1|_];
    [lia|].
  destruct (Str.split Str.nl block) as [|l0 ls] eqn:Hsplit;
    [destruct (split_not_nil _ _ Hsplit)|].
  rewrite docstring_block_ends_quoted; [reflexivity|].
  rewrite unlines_join by discriminate.
  rewrite <- Hsplit.
  change Str.newline with (String Str.nl EmptyString) at 1.
  rewrite join_split, rstrip_app_space by reflexivity. exact Hq.
Qed.

(** C4, at the docstring [quoted_doc] and at the docstring that is one line
    break: the trimmed block ends with three double quotes, so line 83-84
    adds nothing, and the output does not end with a line that holds the
    indent and the closing quotes only. *)
Theorem closing_quotes_not_ensured :
  _format_docstring quoted_doc EmptyString
  = Str.triple_quote +:+ "a" +:+ Str.newline +:+ "b" +:+ Str.triple_quote
      +:+ Str.newline
  /\ Str.endswith (_format_docstring quoted_doc EmptyString)
       (Str.newline +:+ Str.triple_quote +:+ Str.newline) = false
  /\ _format_docstring Str.newline "    "
     = "    " +:+ Str.triple_quote +:+ Str.newline +:+ Str.newline
  /\ Str.endswith (_format_docstring Str.newline "    ")
       (Str.newline +:+ "    " +:+ Str.triple_quote +:+ Str.newline) = false.
Proof. repeat split; vm_compute; reflexivity. Qed.

(** What line 83-84 does ensure, for every docstring of more than one line:
    the closing line is added exactly when the trimmed block does not end
    with three double quotes, wherever on its last line they stand. *)
Lemma format_docstring_closing (doc indent : string) :
  length (Str.split Str.nl doc) <> 1 ->
  _format_docstring doc indent
  = if Str.endswith
         (Str.rstrip (docstring_block (Str.split Str.nl doc) indent))
         Str.triple_quote
    then docstring_block (Str.split Str.nl doc) indent
    else docstring_block (Str.split Str.nl doc) indent
           +:+ indent +:+ Str.triple_quote +:+ Str.newline.
Proof.
  intros Hlen. unfold _format_docstring.
  destruct (Nat.eqb_spec (length (Str.split Str.nl doc)) 1); [contradiction|].
  destruct (Str.endswith _ _); reflexivity.
Qed.

(** ** [_sort_key] and [stub_package] *)

Lemma relative_to_app (root rel : path) : relative_to (root ++ rel) root = Ok rel.
Proof.
  induction root as [|r root IH]; simpl.
  - destruct rel; reflexivity.
  - rewrite String.eqb_refl. exact IH.
Qed.

Lemma set_last_cons (x : string) (l : list string) (y : string) :
  l <> [] -> set_last (x :: l) y = x :: set_last l y.
Proof. destruct l; [congruence|reflexivity]. Qed.

Lemma set_last_snoc (l : list string) (x y : string) :
  set_last (l ++ [x]) y = l ++ [y].
Proof.
  induction l as [|z l IH]; [reflexivity|].
  rewrite <- !app_comm_cons, set_last_cons by (destruct l; discriminate).
  rewrite IH. reflexivity.
Qed.

(** The key of a package-initializer file: its directory, then the
    sentinel. *)
Lemma sort_key_init (root dir : path) :
  _sort_key (root ++ dir ++ ["__init__.py"]) root = Ok (dir ++ [nul]).
Proof.
  unfold _sort_key. rewrite relative_to_app, bind_Ok, last_snoc.
  rewrite String.eqb_refl. simpl. rewrite set_last_snoc. reflexivity.
Qed.

(** The key of any other file: its path from the root. *)
Lemma sort_key_other (root rel : path) (name : string) :
  last rel = Some name -> name <> "__init__.py" ->
  _sort_key (root ++ rel) root = Ok rel.
Proof.
  intros Hl Hn. unfold _sort_key. rewrite relative_to_app, bind_Ok, Hl.
  apply String.eqb_neq in Hn. rewrite Hn. reflexivity.
Qed.

(** The key of a path below a directory starts with that directory and the
    next part of the path. *)
Lemma sort_key_below (root dir : path) (name : string) (rest : path) :
  name :: rest <> ["__init__.py"] ->
  exists tail,
    _sort_key (root ++ dir ++ name :: rest) root = Ok (dir ++ name :: tail).
Proof.
  intros Hne. unfold _sort_key. rewrite relative_to_app, bind_Ok.
  destruct (last (dir ++ name :: rest)) as [x|] eqn:Hl.
  - destruct (String.eqb x "__init__.py") eqn:Hx; [|eauto].
    apply String.eqb_eq in Hx. subst x.
    destruct rest as [|y rest' _] using rev_ind.
    + rewrite last_snoc in Hl. congruence.
    + exists (rest' ++ [nul]).
      replace (dir ++ name :: rest' ++ [y])
        with ((dir ++ name :: rest') ++ [y])
        by (rewrite <- app_assoc; reflexivity).
      rewrite set_last_snoc, <- app_assoc. reflexivity.
  - apply last_None in Hl. destruct dir; discriminate.
Qed.

(** The sentinel is smaller than the name of a file or directory. *)
Lemma nul_ltb_file_name (name : string) :
  is_file_name name = true ->
  String.eqb nul name = false /\ Str.ltb nul name = true.
Proof.
  unfold is_file_name. destruct name as [|c s]; [discriminate|].
  cbn [Str.is_empty negb andb all_chars].
  intros [Hc _]%andb_prop. apply negb_true_iff, Ascii.eqb_neq in Hc.
  assert (N_of_ascii c <> 0%N) as HN.
  { intros H. apply Hc, N_of_ascii_inj. exact H. }
  split.
  - apply String.eqb_neq. unfold nul. intros [= H]. congruence.
  - unfold nul. cbn [Str.ltb]. apply orb_true_iff. left. apply N.ltb_lt.
    change (N_of_ascii "000") with 0%N. lia.
Qed.

(** A path below the root has a key. *)
Lemma sort_key_Ok (root rel : path) :
  rel <> [] -> exists k, _sort_key (root ++ rel) root = Ok k.
Proof.
  intros Hrel. unfold _sort_key. rewrite relative_to_app, bind_Ok.
  destruct (last rel) as [name|] eqn:Hl;
    [|apply last_None in Hl; contradiction].
  destruct (String.eqb name "__init__.py"); eauto.
Qed.

Lemma mapM_cons {A B : Type} (f : A -> result B) (x : A) (l : list A) :
  mapM f (x :: l) = (y ← f x; k ← mapM f l; mret (y :: k)).
Proof. reflexivity. Qed.

(** The pairs that line 324 orders: each file with its key. *)
Lemma keyed_files (root : path) (files : list path) keyed :
  mapM (fun p => k ← _sort_key p root; mret (k, p)) files = Ok keyed ->
  keyed.*2 = files
  /\ Forall (fun kp => _sort_key kp.2 root = Ok kp.1) keyed.
Proof.
  intros H%mapM_Ok. induction H as [|p kp files keyed Hp _ [IH1 IH2]].
  - split; constructor.
  - destruct (_sort_key p root) as [k|e] eqn:Hk; [|discriminate].
    rewrite bind_Ok in Hp. injection Hp as <-. simpl. split.
    + f_equal. exact IH1.
    + constructor; [exact Hk|exact IH2].
Qed.

(** C2: in whatever order the files of the specification's example are
    found, line 324 orders them as [pkg/__init__.py], [pkg/a.py],
    [pkg/b.py], [pkg/sub/__init__.py], [pkg/sub/c.py] and the sections come
    out in that order; in general the ordered list is a permutation of the
    files found in which no file has a smaller key than one before it, the
    key of a package-initializer file is smaller than the key of every
    other path below its directory, and the key of any other file is its
    path from the root, compared part by part. *)
Theorem package_files_ordered :
  (forall files,
     files ≡ₚ sample_files ->
     sorted_py_files sample_root files = Ok sample_files_sorted
     /\ stub_package sample_stub_module (sample_fs files) sample_root
        = Ok (Str.join (Str.newline +:+ Str.newline) sample_sections))
  /\ (forall root files out,
        sorted_py_files root files = Ok out ->
        files ≡ₚ out
        /\ forall i j p q,
             i < j -> out !! i = Some p -> out !! j = Some q ->
             exists kp kq,
               _sort_key p root = Ok kp /\ _sort_key q root = Ok kq
               /\ tuple_ltb kq kp = false)
  /\ (forall root rels,
        Forall (fun rel => rel <> []) rels ->
        exists out, sorted_py_files root (map (app root) rels) = Ok out)
  /\ (forall root dir name rest,
        is_file_name name = true ->
        name :: rest <> ["__init__.py"] ->
        exists k1 k2,
          _sort_key (root ++ dir ++ ["__init__.py"]) root = Ok k1
          /\ _sort_key (root ++ dir ++ name :: rest) root = Ok k2
          /\ tuple_ltb k1 k2 = true)
  /\ (forall root rel name,
        last rel = Some name -> name <> "__init__.py" ->
        _sort_key (root ++ rel) root = Ok rel).
Proof.
  split; [|split; [|split; [|split]]].
  - intros files Hperm. symmetry in Hperm.
    apply permutations_Permutation in Hperm. revert files Hperm.
    apply Forall_forall.
    let l := eval vm_compute in (permutations sample_files) in
    change (permutations sample_files) with l.
    repeat (apply Forall_cons; split;
            [split; vm_compute; reflexivity|]).
    apply Forall_nil. trivial.
  - intros root files out. unfold sorted_py_files.
    destruct (mapM _ files) as [keyed|e] eqn:Hk; [|discriminate].
    rewrite bind_Ok. intros [= <-].
    apply keyed_files in Hk as [Hfiles Hkeys]. split.
    + rewrite <- Hfiles. apply fmap_Permutation. symmetry.
      apply sorted_keyed_perm.
    + intros i j p q Hij Hp Hq.
      apply (list_lookup_fmap_Some snd (sorted_keyed keyed)) in Hp
        as ([kp p'] & -> & Hp).
      apply (list_lookup_fmap_Some snd (sorted_keyed keyed)) in Hq
        as ([kq q'] & -> & Hq).
      exists kp, kq.
      assert (Hin : forall x, x ∈ sorted_keyed keyed ->
                _sort_key x.2 root = Ok x.1).
      { intros x Hx. rewrite sorted_keyed_perm in Hx.
        rewrite Forall_forall in Hkeys. auto. }
      split; [apply (Hin _ (list_elem_of_lookup_2 _ _ _ Hp))|].
      split; [apply (Hin _ (list_elem_of_lookup_2 _ _ _ Hq))|].
      apply (sorted_lookup _ i j (kp, p') (kq, q')
               (sorted_keyed_sorted keyed) Hij Hp Hq).
  - intros root rels Hrels. unfold sorted_py_files.
    assert (exists keyed,
      mapM (fun p => k ← _sort_key p root; mret (k, p)) (map (app root) rels)
      = Ok keyed) as [keyed ->]; [|rewrite bind_Ok; eauto].
    induction Hrels as [|rel rels Hrel _ [keyed IH]]; [exists []; reflexivity|].
    destruct (sort_key_Ok root rel Hrel) as [k Hk].
    cbn [map]. rewrite mapM_cons, Hk, !bind_Ok, IH, bind_Ok. eauto.
  - intros root dir name rest Hname Hne.
    destruct (sort_key_below root dir name rest Hne) as [tail Htail].
    exists (dir ++ [nul]), (dir ++ name :: tail).
    split; [apply sort_key_init|]. split; [exact Htail|].
    rewrite tuple_ltb_app. cbn [tuple_ltb].
    destruct (nul_ltb_file_name name Hname) as [-> ->]. reflexivity.
  - exact sort_key_other.
Qed.

(** ** The theorems at the sample declarations *)

Lemma sample_arguments_aligned : kw_defaults_aligned sample_arguments.
Proof. reflexivity. Defined.

Lemma sample_arguments_identifiers : identifier_names sample_arguments.
Proof. unfold identifier_names. simpl. repeat constructor. Defined.

(** [sample_arguments] has four positional parameters and three defaults:
    [a] has none, [b], [c] and [d] have the three in order. *)
Lemma defaults_align_to_the_end_sample :
  kw_defaults_aligned sample_arguments
  /\ length (defaults sample_arguments)
     <= length (posonlyargs sample_arguments ++ args sample_arguments)
  /\ exists parts,
       format_arguments_parts id sample_arguments = Ok parts
       /\ format_arguments id sample_arguments = Ok (Str.join ", " parts)
       /\ Str.join ", " parts
          = "a, b: int = 1, /, c = 2, d = 3, *rest, k, m: str = 4, **kw"
       /\ parts !! 0 = Some "a"
       /\ parts !! 1 = Some "b: int = 1"
       /\ parts !! 3 = Some "c = 2"
       /\ parts !! 4 = Some "d = 3".
Proof.
  assert (H2 : length (defaults sample_arguments)
               <= length (posonlyargs sample_arguments
                            ++ args sample_arguments))
    by (simpl; lia).
  split; [exact sample_arguments_aligned|]. split; [exact H2|].
  destruct (defaults_align_to_the_end id sample_arguments
              sample_arguments_aligned H2) as (parts & Hp & Ht & Hi & _).
  exists parts. split; [exact Hp|]. split; [exact Ht|].
  split; [injection Hp as <-; reflexivity|].
  split; [exact (proj1 (Hi 0 (Arg "a" None) eq_refl))|].
  split; [exact (proj1 (Hi 1 (Arg "b" (Some "int")) eq_refl))|].
  split; [exact (proj1 (Hi 2 (Arg "c" None) eq_refl))|].
  exact (proj1 (Hi 3 (Arg "d" None) eq_refl)).
Defined.

(** [sample_arguments] has two positional-only parameters: the slash is the
    fragment at index 2. *)
Lemma slash_marker_sample :
  kw_defaults_aligned sample_arguments
  /\ identifier_names sample_arguments
  /\ exists parts,
       format_arguments_parts id sample_arguments = Ok parts
       /\ format_arguments id sample_arguments = Ok (Str.join ", " parts)
       /\ "/" ∈ parts
       /\ parts !! 2 = Some "/".
Proof.
  split; [exact sample_arguments_aligned|].
  split; [exact sample_arguments_identifiers|].
  destruct (slash_marker id sample_arguments sample_arguments_aligned
              sample_arguments_identifiers) as (parts & Hp & Ht & Hin & _ & Hat).
  exists parts. split; [exact Hp|]. split; [exact Ht|].
  split; [apply Hin; discriminate|].
  exact (proj2 (Hat (Arg "b" (Some "int")) eq_refl)).
Defined.

(** [sample_keyword_only] has no variadic-positional parameter and one
    keyword-only parameter: the bare star is the fragment at index 1. *)
Lemma star_marker_sample :
  kw_defaults_aligned sample_keyword_only
  /\ identifier_names sample_keyword_only
  /\ exists parts,
       format_arguments_parts id sample_keyword_only = Ok parts
       /\ format_arguments id sample_keyword_only
          = Ok (Str.join ", " parts)
       /\ Str.join ", " parts = "x, *, key = None"
       /\ "*" ∈ parts
       /\ parts !! 1 = Some "*".
Proof.
  assert (H1 : kw_defaults_aligned sample_keyword_only) by reflexivity.
  assert (H2 : identifier_names sample_keyword_only)
    by (unfold identifier_names; simpl; repeat constructor).
  split; [exact H1|]. split; [exact H2|].
  destruct (star_marker id sample_keyword_only H1 H2)
    as (parts & Hp & Ht & Hin & _ & Hat & _).
  exists parts. split; [exact Hp|]. split; [exact Ht|].
  split; [injection Hp as <-; reflexivity|].
  split; [apply Hin; split; [reflexivity|discriminate]|].
  apply Hat; [reflexivity|discriminate].
Defined.

(** [sample_arguments] has the keyword-only parameters [k], with no
    default, and [m], with the default 4. *)
Lemma kwonly_defaults_paired_sample :
  kw_defaults_aligned sample_arguments
  /\ exists parts,
       format_arguments_parts id sample_arguments = Ok parts
       /\ format_arguments id sample_arguments = Ok (Str.join ", " parts)
       /\ parts !! 6 = Some "k"
       /\ parts !! 7 = Some "m: str = 4".
Proof.
  split; [exact sample_arguments_aligned|].
  destruct (kwonly_defaults_paired id sample_arguments
              sample_arguments_aligned) as (parts & Hp & Ht & Hi).
  exists parts. split; [exact Hp|]. split; [exact Ht|]. split.
  - destruct (Hi 0 (Arg "k" None) eq_refl) as (d & Hd & Hk & _).
    injection Hd as <-. exact Hk.
  - destruct (Hi 1 (Arg "m" (Some "str")) eq_refl) as (d & Hd & Hk & _).
    injection Hd as <-. exact Hk.
Defined.

(** The stub of [sample_function] ends with the placeholder, after the
    docstring block. *)
Lemma function_body_elided_sample :
  kw_defaults_aligned (fn_args sample_function)
  /\ exists lines,
       stub_function_lines id Some false sample_function "m.py" EmptyString
         true = Ok lines
       /\ lines !! 2 = Some ("    " +:+ Str.triple_quote +:+ "doc"
                               +:+ Str.triple_quote)
       /\ last lines = Some "    ...".
Proof.
  split; [exact sample_arguments_aligned|].
  destruct (function_body_elided id Some false sample_function "m.py"
              EmptyString true sample_arguments_aligned)
    as (header & Hh & Hl & _ & Hall).
  eexists. split; [exact Hl|]. split; [reflexivity|].
  exact (proj1 (proj2 (Hall _ Hl))).
Defined.

(** ** More on [format_arguments] *)

Section FormatArgumentsMore.

Context {expr : Type}.
Variable unparse : expr -> string.

Implicit Types (node : arguments expr) (a : arg expr).

Local Abbreviation all_pos node := (posonlyargs node ++ args node).
Local Abbreviation num_posonly node := (length (posonlyargs node)).
Local Abbreviation num_pos node := (length (posonlyargs node ++ args node)).
Local Abbreviation num_defaults node := (length (defaults node)).

Lemma star_parts_app node (l : list string) :
  star_parts unparse node l = l ++ star_parts unparse node [].
Proof.
  unfold star_parts. destruct (vararg node); [reflexivity|].
  destruct (kwonlyargs node); [rewrite app_nil_r|]; reflexivity.
Qed.

Lemma kwarg_parts_app node (l : list string) :
  kwarg_parts unparse node l = l ++ kwarg_parts unparse node [].
Proof.
  unfold kwarg_parts. destruct (kwarg node); [|rewrite app_nil_r]; reflexivity.
Qed.

(** The groups of [parts] when [kw_defaults] is long enough. *)
Lemma format_arguments_parts_groups node :
  length (kwonlyargs node) <= length (kw_defaults node) ->
  format_arguments_parts unparse node
  = Ok (positional_parts unparse node ++ star_parts unparse node []
          ++ kwonly_parts unparse node ++ kwarg_parts unparse node []).
Proof.
  intros Hkw. unfold format_arguments_parts.
  rewrite (positional_loop_posonly unparse node (posonlyargs node) 0 [])
    by reflexivity.
  rewrite bind_Ok, kwonly_loop_Ok by (simpl; lia).
  rewrite bind_Ok. unfold positional_parts, kwonly_parts. simpl. f_equal.
  rewrite kwarg_parts_app, star_parts_app. rewrite <- !app_assoc.
  reflexivity.
Qed.

(** The loop over keyword-only parameters raises at the first index that
    [kw_defaults] does not have. *)
Lemma kwonly_loop_Raise node rest : forall i parts,
  i <= length (kw_defaults node) ->
  length (kw_defaults node) < i + length rest ->
  kwonly_loop unparse node i rest parts = Raise IndexError.
Proof.
  induction rest as [|a rest IH]; intros i parts Hi Hlen; simpl in Hlen;
    [lia|].
  cbn [kwonly_loop]. unfold kwonly_fragment, getitem.
  destruct (kw_defaults node !! i) as [d|] eqn:Hd.
  - apply lookup_lt_Some in Hd as Hlt. rewrite bind_Ok.
    destruct d; rewrite bind_Ok; apply IH; lia.
  - reflexivity.
Qed.

(** With too few entries in [kw_defaults], [format_arguments] raises. *)
Lemma format_arguments_Raise node :
  length (kw_defaults node) < length (kwonlyargs node) ->
  format_arguments unparse node = Raise IndexError.
Proof.
  intros Hkw. unfold format_arguments, format_arguments_parts.
  rewrite (positional_loop_posonly unparse node (posonlyargs node) 0 [])
    by reflexivity.
  rewrite bind_Ok, kwonly_loop_Raise by (simpl; lia). reflexivity.
Qed.

(** X1: [format_arguments] returns a text when [kw_defaults] has an entry
    for every keyword-only parameter, whatever the number of positional
    defaults, and raises [IndexError] when it has fewer. *)
Theorem format_arguments_raises_iff node :
  (length (kwonlyargs node) <= length (kw_defaults node) ->
   exists s, format_arguments unparse node = Ok s)
  /\ (length (kw_defaults node) < length (kwonlyargs node) ->
      format_arguments unparse node = Raise IndexError).
Proof.
  split; intros Hkw.
  - unfold format_arguments.
    rewrite format_arguments_parts_groups by exact Hkw. rewrite bind_Ok.
    eauto.
  - apply format_arguments_Raise, Hkw.
Qed.

(** The fragments of the positional parameters depend on the defaults
    through [positional_default] only. *)
Lemma positional_parts_ext node ds :
  (forall i, i < num_pos node ->
             positional_default (set_defaults node ds) i
             = positional_default node i) ->
  positional_parts unparse (set_defaults node ds)
  = positional_parts unparse node.
Proof.
  intros Hd. unfold positional_parts. cbn [set_defaults posonlyargs args].
  rewrite length_app in Hd. f_equal; [|f_equal].
  - apply imap_ext. intros i a Ha. apply lookup_lt_Some in Ha.
    unfold positional_text. rewrite Hd by lia. reflexivity.
  - apply imap_ext. intros i a Ha. apply lookup_lt_Some in Ha.
    unfold positional_text. rewrite Hd by lia. reflexivity.
Qed.

(** With at least as many defaults as positional parameters, only the last
    [n] defaults are looked up. *)
Lemma positional_default_surplus node ds i :
  num_pos node <= num_defaults node ->
  i < num_pos node ->
  positional_default
    (set_defaults node
       (ds ++ drop (num_defaults node - num_pos node) (defaults node))) i
  = positional_default node i.
Proof.
  intros Hd Hi. unfold positional_default.
  cbn [set_defaults posonlyargs args defaults].
  assert (Hlen : length (ds ++ drop (num_defaults node - num_pos node)
                                 (defaults node))
                 = length ds + num_pos node)
    by (rewrite (length_app ds), length_drop; lia).
  rewrite Hlen, !decide_True by lia.
  rewrite lookup_app_r by lia. rewrite lookup_drop. f_equal. lia.
Qed.

(** X2: with at least as many positional defaults as positional
    parameters, every positional parameter is rendered with a default, the
    one at index [i] with [defaults[i + d - n]]: the last [n] defaults are
    used. The first [d - n] are not rendered: [format_arguments] returns
    the same text when they are dropped or replaced by any others. The
    fragments are those that [format_arguments] joins into the text it
    returns. *)
Theorem surplus_defaults_use_the_last node :
  length (kwonlyargs node) <= length (kw_defaults node) ->
  num_pos node <= num_defaults node ->
  exists parts,
    format_arguments_parts unparse node = Ok parts
    /\ format_arguments unparse node = Ok (Str.join ", " parts)
    /\ (forall i a,
          all_pos node !! i = Some a ->
          exists e,
            defaults node !! (i + num_defaults node - num_pos node) = Some e
            /\ parts !! positional_slot (num_posonly node) i
               = Some (arg_text unparse a +:+ " = " +:+ unparse e))
    /\ (forall ds,
          let node' :=
            set_defaults node
              (ds ++ drop (num_defaults node - num_pos node)
                       (defaults node)) in
          format_arguments_parts unparse node' = Ok parts
          /\ format_arguments unparse node' = format_arguments unparse node).
Proof.
  intros Hkw Hd.
  assert (Htext : forall n, length (kwonlyargs n) <= length (kw_defaults n) ->
            format_arguments unparse n
            = Ok (Str.join ", "
                    (positional_parts unparse n ++ star_parts unparse n []
                       ++ kwonly_parts unparse n ++ kwarg_parts unparse n []))).
  { intros n Hn. unfold format_arguments.
    rewrite format_arguments_parts_groups by exact Hn. reflexivity. }
  assert (Hsame : forall ds,
            format_arguments_parts unparse
              (set_defaults node
                 (ds ++ drop (num_defaults node - num_pos node)
                          (defaults node)))
            = format_arguments_parts unparse node).
  { intros ds. rewrite !format_arguments_parts_groups by exact Hkw.
    rewrite positional_parts_ext; [reflexivity|].
    intros i Hi. apply positional_default_surplus; assumption. }
  rewrite (Htext node Hkw).
  rewrite format_arguments_parts_groups in * by exact Hkw.
  eexists. split; [reflexivity|]. split; [reflexivity|]. split.
  - intros i a Ha.
    pose proof (lookup_lt_Some _ _ _ Ha) as Hi.
    destruct (lookup_lt_is_Some_2 (defaults node)
                (i + num_defaults node - num_pos node)) as [e He]; [lia|].
    exists e. split; [exact He|]. apply lookup_app_l_Some.
    rewrite (positional_parts_lookup unparse node i a Ha).
    unfold positional_text, positional_default.
    rewrite decide_True by lia. rewrite He. reflexivity.
  - intros ds node'. split; [apply Hsame|].
    unfold format_arguments. unfold node'. rewrite Hsame. reflexivity.
Qed.

(** X3: the list of fragments has one element per parameter, one for the
    slash when there is a positional-only parameter and one for the star
    group; the variadic-keyword parameter, when there is one, is the last
    fragment, [**name] with its annotation. *)
Theorem kwarg_is_last node :
  length (kwonlyargs node) <= length (kw_defaults node) ->
  exists parts,
    format_arguments_parts unparse node = Ok parts
    /\ length parts
       = num_pos node
         + (match posonlyargs node with [] => 0 | _ :: _ => 1 end)
         + star_count node
         + length (kwonlyargs node)
         + (match kwarg node with None => 0 | Some _ => 1 end)
    /\ (forall k, kwarg node = Some k ->
                  last parts = Some (kwarg_text unparse k)).
Proof.
  intros Hkw. rewrite format_arguments_parts_groups by exact Hkw.
  eexists. split; [reflexivity|]. split.
  - rewrite !length_app, positional_parts_length. unfold star_slot.
    unfold kwonly_parts. rewrite length_imap.
    assert (length (star_parts unparse node []) = star_count node) as ->.
    { unfold star_parts, star_count. destruct (vararg node); [reflexivity|].
      destruct (kwonlyargs node); reflexivity. }
    assert (length (kwarg_parts unparse node [])
            = match kwarg node with None => 0 | Some _ => 1 end) as ->.
    { unfold kwarg_parts. destruct (kwarg node); reflexivity. }
    rewrite ?length_app. lia.
  - intros k Hk. rewrite !app_assoc.
    assert (kwarg_parts unparse node [] = [kwarg_text unparse k]) as ->.
    { unfold kwarg_parts, kwarg_text. rewrite Hk.
      destruct (annotation k); reflexivity. }
    apply last_snoc.
Qed.

End FormatArgumentsMore.

(** ** More on [_format_docstring] *)

Lemma split_no_newline (s : string) :
  Forall (fun l => count_newlines l = 0) (Str.split Str.nl s).
Proof.
  induction s as [|c s IH]; [repeat constructor|]. cbn [Str.split].
  destruct (Ascii.eqb c Str.nl) eqn:Hc; [constructor; [reflexivity|exact IH]|].
  destruct (Str.split Str.nl s) as [|l ls].
  - repeat constructor. cbn [count_newlines]. rewrite Hc. reflexivity.
  - apply Forall_cons in IH as [Hl Hls]. constructor; [|exact Hls].
    cbn [count_newlines]. rewrite Hc, Hl. reflexivity.
Qed.

(** A line and its line break in front of a text: the line, then the lines
    of the text. *)
Lemma split_line (a b : string) :
  count_newlines a = 0 ->
  Str.split Str.nl (a +:+ String Str.nl b) = a :: Str.split Str.nl b.
Proof.
  induction a as [|c a IH]; intros Ha.
  - rewrite str_app_nil_l. reflexivity.
  - cbn [count_newlines] in Ha. rewrite str_app_cons. cbn [Str.split].
    destruct (Ascii.eqb c Str.nl); [discriminate|].
    rewrite IH by exact Ha. reflexivity.
Qed.

Lemma split_unlines (ls : list string) (t : string) :
  Forall (fun l => count_newlines l = 0) ls ->
  Str.split Str.nl (unlines ls +:+ t) = ls ++ Str.split Str.nl t.
Proof.
  induction 1 as [|l ls Hl _ IH]; [reflexivity|].
  cbn [unlines]. rewrite !str_app_assoc.
  change (Str.newline +:+ unlines ls +:+ t)
    with (String Str.nl (unlines ls +:+ t)).
  rewrite split_line by exact Hl. rewrite IH. reflexivity.
Qed.

Lemma unlines_app (l1 l2 : list string) :
  unlines (l1 ++ l2) = unlines l1 +:+ unlines l2.
Proof.
  induction l1 as [|l l1 IH]; [reflexivity|].
  cbn [app unlines]. rewrite IH, !str_app_assoc. reflexivity.
Qed.

(** The loop of lines 77-81 writes one line per continuation line. *)
Lemma continuation_unlines (indent : string) (ls : list string) :
  continuation indent ls = unlines (map (reindent indent) ls).
Proof.
  induction ls as [|l ls IH]; [reflexivity|].
  cbn [continuation map unlines]. rewrite IH. unfold reindent.
  destruct (negb _); rewrite ?str_app_assoc; reflexivity.
Qed.

Lemma rstrip_idempotent (s : string) : Str.rstrip (Str.rstrip s) = Str.rstrip s.
Proof.
  induction s as [|c s IH]; [reflexivity|]. cbn [Str.rstrip].
  destruct (Str.is_empty (Str.rstrip s) && Str.isspace c) eqn:Hc;
    [reflexivity|].
  cbn [Str.rstrip]. rewrite IH, Hc. reflexivity.
Qed.

Lemma rstrip_cons_nonspace (c : ascii) (s : string) :
  Str.isspace c = false -> Str.rstrip (String c s) = String c (Str.rstrip s).
Proof.
  intros Hc. cbn [Str.rstrip]. rewrite Hc, andb_false_r. reflexivity.
Qed.

Lemma rstrip_triple_quote (s : string) :
  Str.rstrip (Str.triple_quote +:+ s) = Str.triple_quote +:+ Str.rstrip s.
Proof.
  unfold Str.triple_quote. rewrite !str_app_cons, str_app_nil_l.
  rewrite !rstrip_cons_nonspace by reflexivity. reflexivity.
Qed.

(** X4: for a docstring of more than one line and an indent with no line
    break in it, the formatted block has one line per line of the
    docstring: the first after the indent and the opening quotes, each later
    one indented when it is not blank and empty when it is blank, then the
    closing line when line 83-84 adds it; the block ends with a line
    break. *)
Theorem format_docstring_lines (doc indent l0 : string) (ls : list string) :
  count_newlines indent = 0 ->
  Str.split Str.nl doc = l0 :: ls ->
  ls <> [] ->
  Str.split Str.nl (_format_docstring doc indent)
  = (indent +:+ Str.triple_quote +:+ l0)
    :: map (reindent indent) ls
    ++ (if Str.endswith (Str.rstrip (docstring_block (l0 :: ls) indent))
             Str.triple_quote
        then [] else [indent +:+ Str.triple_quote])
    ++ [EmptyString].
Proof.
  intros Hindent Hsplit Hls.
  pose proof (split_no_newline doc) as Hlines. rewrite Hsplit in Hlines.
  apply Forall_cons in Hlines as [Hl0 Hlines].
  assert (Hre : Forall (fun l => count_newlines l = 0)
                  (map (reindent indent) ls)).
  { apply Forall_fmap. eapply Forall_impl; [exact Hlines|].
    intros l Hl. simpl in *. unfold reindent.
    destruct (negb _); [|reflexivity].
    rewrite count_newlines_app, Hl, Hindent. reflexivity. }
  assert (Hfirst : count_newlines (indent +:+ Str.triple_quote +:+ l0) = 0).
  { rewrite !count_newlines_app, Hindent, Hl0. reflexivity. }
  unfold _format_docstring. rewrite Hsplit.
  destruct (Nat.eqb_spec (length (l0 :: ls)) 1) as [Hlen|_];
    [destruct ls; [congruence|discriminate]|].
  assert (Hblock : docstring_block (l0 :: ls) indent
                   = unlines ((indent +:+ Str.triple_quote +:+ l0)
                                :: map (reindent indent) ls)).
  { unfold docstring_block. cbn [head tail default from_option unlines].
    rewrite fold_left_docstring_line, continuation_unlines.
    rewrite !str_app_assoc. reflexivity. }
  destruct (Str.endswith (Str.rstrip (docstring_block (l0 :: ls) indent))
              Str.triple_quote); cbn [negb].
  - rewrite Hblock, <- (str_app_nil_r (unlines _)).
    rewrite split_unlines by (constructor; assumption). reflexivity.
  - assert (Hout : docstring_block (l0 :: ls) indent +:+ indent
                     +:+ Str.triple_quote +:+ Str.newline
                   = unlines (((indent +:+ Str.triple_quote +:+ l0)
                                 :: map (reindent indent) ls)
                                ++ [indent +:+ Str.triple_quote])
                       +:+ EmptyString).
    { rewrite Hblock, unlines_app. cbn [unlines].
      rewrite !str_app_assoc. reflexivity. }
    rewrite Hout, split_unlines.
    + rewrite <- app_assoc. reflexivity.
    + apply Forall_app. split; [constructor; assumption|].
      repeat constructor. rewrite count_newlines_app, Hindent. reflexivity.
Qed.

(** X5: a docstring with no line break is put between the quotes on one
    line, and trimmed, as a stub holds it, it is the indent, the quotes, the
    docstring and the quotes. *)
Theorem format_docstring_one_line (doc indent : string) :
  count_newlines doc = 0 ->
  _format_docstring doc indent
  = indent +:+ Str.triple_quote +:+ doc +:+ Str.triple_quote +:+ Str.newline
  /\ Str.rstrip (_format_docstring doc indent)
     = indent +:+ Str.triple_quote +:+ doc +:+ Str.triple_quote.
Proof.
  intros Hdoc. unfold _format_docstring.
  rewrite split_length, Hdoc. cbn [Nat.eqb]. split; [reflexivity|].
  rewrite <- !str_app_assoc. rewrite rstrip_app_space by reflexivity.
  rewrite rstrip_app_nonspace by discriminate. reflexivity.
Qed.

Section DocstringInStub.

Context {expr simple : Type}.
Variable constant_str : expr -> option string.

(** X6: the docstring element of a stub, when there is one, starts with the
    body indent and three double quotes, ends with three double quotes and
    has no whitespace at its end, whatever the indent and the docstring. *)
Theorem docstring_lines_quoted (body : list (stmt expr simple))
    (include_docstrings : bool) (body_indent x : string) :
  x ∈ docstring_lines constant_str body include_docstrings body_indent ->
  (exists rest, x = body_indent +:+ Str.triple_quote +:+ rest)
  /\ Str.endswith x Str.triple_quote = true
  /\ Str.rstrip x = x.
Proof.
  unfold docstring_lines. destruct (truthy _); [|intros H; inversion H].
  intros ->%list_elem_of_singleton.
  set (doc := default EmptyString _).
  split; [|split].
  - destruct (format_docstring_opening doc body_indent) as [rest ->].
    exists (Str.rstrip rest).
    rewrite rstrip_app_nonspace, rstrip_triple_quote; [reflexivity|].
    rewrite rstrip_triple_quote. discriminate.
  - apply format_docstring_ends_quoted.
  - apply rstrip_idempotent.
Qed.

End DocstringInStub.

(** ** More on [stub_function] and [stub_class] *)

Section DeclarationsMore.

Context {expr simple : Type}.
Variable unparse : expr -> string.
Variable constant_str : expr -> option string.
Variable get_source_segment : string -> stmt expr simple -> option string.
Variable unparse_stmt : stmt expr simple -> string.

Local Abbreviation function_node := (function_def expr (stmt expr simple)).
Local Abbreviation class_node := (class_def expr simple).
Local Abbreviation stmt_node := (stmt expr simple).

Lemma signature_line_returns is_async (node : function_node) indent :
  length (kwonlyargs (fn_args node)) <= length (kw_defaults (fn_args node)) ->
  exists header, signature_line unparse is_async node indent = Ok header.
Proof.
  intros Hkw. unfold signature_line, format_arguments.
  rewrite format_arguments_parts_groups by exact Hkw. rewrite !bind_Ok.
  eauto.
Qed.

(** X7: when [kw_defaults] has an entry for every keyword-only parameter,
    [stub_function] returns these lines, joined by line breaks: the
    location comment, one line per decorator in their order, the header with
    the text of [format_arguments] between its parentheses, then one
    docstring element exactly when docstrings are included and the first
    statement of the body is a string constant that is not empty, then the
    placeholder. When [kw_defaults] is too short, [stub_function] raises
    [IndexError]. *)
Theorem function_stub_lines (is_async : bool) (node : function_node)
    source_file indent (include_docstrings : bool) :
  (length (kwonlyargs (fn_args node)) <= length (kw_defaults (fn_args node)) ->
   exists sig lines,
     format_arguments unparse (fn_args node) = Ok sig
     /\ lines
        = [indent +:+ "# " +:+ source_file +:+ ":"
             +:+ Str.of_N (fn_lineno node) +:+ "-"
             +:+ Str.of_N (fn_end_lineno node)]
          ++ map (fun dec => indent +:+ "@" +:+ unparse dec)
               (fn_decorator_list node)
          ++ [indent +:+ (if is_async then "async " else EmptyString)
                +:+ "def " +:+ fn_name node +:+ "(" +:+ sig +:+ ")"
                +:+ match fn_returns node with
                    | Some r => " -> " +:+ unparse r
                    | None => EmptyString
                    end
                +:+ ":"]
          ++ (if include_docstrings
                 && truthy (get_docstring constant_str (fn_body node))
              then [Str.rstrip
                      (_format_docstring
                         (default EmptyString
                            (get_docstring constant_str (fn_body node)))
                         (indent +:+ "    "))]
              else [])
          ++ [(indent +:+ "    ") +:+ "..."]
     /\ stub_function_lines unparse constant_str is_async node source_file
          indent include_docstrings = Ok lines
     /\ stub_function unparse constant_str is_async node source_file indent
          include_docstrings = Ok (Str.join Str.newline lines)
     /\ length lines
        = 3 + length (fn_decorator_list node)
          + (if include_docstrings
                && truthy (get_docstring constant_str (fn_body node))
             then 1 else 0)
     /\ (forall i dec,
           fn_decorator_list node !! i = Some dec ->
           lines !! S i = Some (indent +:+ "@" +:+ unparse dec)))
  /\ (length (kw_defaults (fn_args node)) < length (kwonlyargs (fn_args node)) ->
      stub_function unparse constant_str is_async node source_file indent
        include_docstrings = Raise IndexError).
Proof.
  split; intros Hkw.
  - assert (Hsig : exists sig,
              format_arguments unparse (fn_args node) = Ok sig).
    { unfold format_arguments.
      rewrite format_arguments_parts_groups by exact Hkw. rewrite bind_Ok.
      eauto. }
    destruct Hsig as [sig Hsig]. exists sig. eexists.
    split; [exact Hsig|]. split; [reflexivity|].
    assert (Hlines :
      stub_function_lines unparse constant_str is_async node source_file
        indent include_docstrings
      = Ok ([indent +:+ "# " +:+ source_file +:+ ":"
               +:+ Str.of_N (fn_lineno node) +:+ "-"
               +:+ Str.of_N (fn_end_lineno node)]
            ++ map (fun dec => indent +:+ "@" +:+ unparse dec)
                 (fn_decorator_list node)
            ++ [indent +:+ (if is_async then "async " else EmptyString)
                  +:+ "def " +:+ fn_name node +:+ "(" +:+ sig +:+ ")"
                  +:+ match fn_returns node with
                      | Some r => " -> " +:+ unparse r
                      | None => EmptyString
                      end
                  +:+ ":"]
            ++ (if include_docstrings
                   && truthy (get_docstring constant_str (fn_body node))
                then [Str.rstrip
                        (_format_docstring
                           (default EmptyString
                              (get_docstring constant_str (fn_body node)))
                           (indent +:+ "    "))]
                else [])
            ++ [(indent +:+ "    ") +:+ "..."])).
    { unfold stub_function_lines, signature_line. rewrite Hsig, !bind_Ok.
      unfold mret, result_ret. apply (f_equal (@Ok _)).
      unfold docstring_lines, decorator_lines, location_comment.
      rewrite <- !app_assoc. cbn [app].
      destruct include_docstrings; cbn [andb];
        [destruct (truthy _)|]; reflexivity. }
    split; [exact Hlines|]. split.
    + unfold stub_function. rewrite Hlines. reflexivity.
    + split.
      * rewrite !length_app, length_map. cbn [length].
        destruct (include_docstrings && truthy _); cbn [length]; lia.
      * intros i dec Hdec. cbn [app]. change (S i) with (1 + i).
        cbn [lookup list_lookup Nat.add].
        apply lookup_app_l_Some.
        apply (list_lookup_fmap_Some_2
                 (fun d => indent +:+ "@" +:+ unparse d)).
        exact Hdec.
  - unfold stub_function, stub_function_lines, signature_line.
    rewrite (format_arguments_Raise unparse (fn_args node) Hkw).
    reflexivity.
Qed.

(** The loop body passes over a silent statement. *)
Lemma class_child_silent rec source source_file body_indent
    include_docstrings include_private i (child : stmt_node) st :
  class_silent include_private child = true ->
  class_child unparse constant_str get_source_segment unparse_stmt rec
    source source_file body_indent include_docstrings include_private i
    child st
  = Ok st.
Proof.
  intros Hs. unfold class_child. destruct st as [lines has_content].
  destruct (bool_decide _ && (i =? 0)); [reflexivity|].
  destruct child; try discriminate; try reflexivity;
    simpl in Hs; rewrite Hs; reflexivity.
Qed.

Lemma class_loop_silent rec source source_file body_indent
    include_docstrings include_private (children : list stmt_node) :
  forall i st,
    Forall (fun child => class_silent include_private child = true)
      children ->
    class_loop unparse constant_str get_source_segment unparse_stmt rec
      source source_file body_indent include_docstrings include_private i
      children st
    = Ok st.
Proof.
  induction children as [|child children IH]; intros i st Hall;
    [reflexivity|].
  apply Forall_cons in Hall as [Hc Hall]. cbn [class_loop].
  rewrite class_child_silent by exact Hc. rewrite bind_Ok. apply IH, Hall.
Qed.

(** X8: a class whose body holds only statements that are passed over
    (expression statements, imports, statements of other kinds, members
    that private filtering leaves out) is rendered as its head lines and its
    docstring if one is shown, and as its head lines and one placeholder
    otherwise. *)
Theorem class_without_content (node : class_node)
    source source_file indent include_docstrings include_private :
  Forall (fun child => class_silent include_private child = true)
    (cls_body node) ->
  stub_class unparse constant_str get_source_segment unparse_stmt node
    source source_file indent include_docstrings include_private
  = Ok (Str.join Str.newline
          (class_head_lines unparse node source_file indent
           ++ match docstring_lines constant_str (cls_body node)
                      include_docstrings (indent +:+ "    ") with
              | [] => [(indent +:+ "    ") +:+ "..."]
              | doc => doc
              end)).
Proof.
  intros Hall. destruct node as [name bases keywords body decs l1 l2].
  cbn [cls_body] in Hall. unfold class_head_lines.
  cbn [stub_class cls_body cls_name cls_bases cls_keywords
       cls_decorator_list cls_lineno cls_end_lineno].
  rewrite class_loop_silent by exact Hall. rewrite bind_Ok.
  destruct (docstring_lines constant_str body include_docstrings
              (indent +:+ "    ")) as [|d doc] eqn:Hdoc.
  - rewrite bool_decide_eq_false_2 by (intros H; apply H; reflexivity).
    cbn [negb]. same_lines.
  - rewrite bool_decide_eq_true_2 by discriminate.
    cbn [negb]. same_lines.
Qed.

(** What one pass of the loop body adds: nothing and the flag as it was,
    or some lines and the flag set. *)
Lemma class_child_adds rec source source_file body_indent
    include_docstrings include_private i (child : stmt_node)
    lines has_content lines' has_content' :
  class_child unparse constant_str get_source_segment unparse_stmt rec
    source source_file body_indent include_docstrings include_private i
    child (lines, has_content)
  = Ok (lines', has_content') ->
  exists added,
    lines' = lines ++ added
    /\ has_content' = has_content || bool_decide (added <> []).
Proof.
  unfold class_child.
  assert (Hsame : @Ok (list string * bool) (lines, has_content)
                  = Ok (lines', has_content') ->
                  exists added, lines' = lines ++ added
                    /\ has_content'
                       = has_content || bool_decide (added <> [])).
  { intros [= <- <-]. exists []. rewrite app_nil_r, orb_false_r. auto. }
  assert (Hone : forall x,
            @Ok (list string * bool) (lines ++ [x], true)
            = Ok (lines', has_content') ->
            exists added, lines' = lines ++ added
              /\ has_content'
                 = has_content || bool_decide (added <> [])).
  { intros x [= <- <-]. exists [x]. rewrite orb_true_r. auto. }
  assert (Htwo : forall (r : result string),
            (s ← r; mret (lines ++ [EmptyString] ++ [s], true))
            = Ok (lines', has_content') ->
            exists added, lines' = lines ++ added
              /\ has_content'
                 = has_content || bool_decide (added <> [])).
  { intros [s|e]; [|discriminate]. rewrite bind_Ok. intros [= <- <-].
    exists [EmptyString; s]. rewrite orb_true_r. auto. }
  destruct (bool_decide _ && (i =? 0)); [exact Hsame|].
  destruct child; try exact Hsame; try apply Hone;
    destruct (negb include_private && _); try exact Hsame; apply Htwo.
Qed.

Lemma class_loop_adds rec source source_file body_indent
    include_docstrings include_private (children : list stmt_node) :
  forall i lines has_content lines' has_content',
    class_loop unparse constant_str get_source_segment unparse_stmt rec
      source source_file body_indent include_docstrings include_private i
      children (lines, has_content)
    = Ok (lines', has_content') ->
    exists added,
      lines' = lines ++ added
      /\ has_content' = has_content || bool_decide (added <> []).
Proof.
  induction children as [|child children IH];
    intros i lines has_content lines' has_content'.
  - intros [= <- <-]. exists []. rewrite app_nil_r, orb_false_r. auto.
  - cbn [class_loop].
    destruct (class_child _ _ _ _ _ _ _ _ _ _ _ child (lines, has_content))
      as [[lines1 hc1]|e] eqn:Hchild; [|discriminate].
    rewrite bind_Ok. intros Hloop.
    apply class_child_adds in Hchild as (added1 & -> & ->).
    apply IH in Hloop as (added2 & -> & ->).
    exists (added1 ++ added2). split; [symmetry; apply app_assoc|].
    destruct has_content; [reflexivity|]. simpl.
    destruct added1, added2; reflexivity.
Qed.

(** X9: [stub_class] returns a text exactly when the loop over the body
    of the class ends without an exception, and the text is then the head
    lines followed by a body that is never empty: the docstring, if one is
    shown, and the lines that the loop adds for the statements of the body,
    or, when there is no such line, one placeholder. The placeholder stands
    only there: the flag of the loop is set exactly when the loop adds a
    line. *)
Theorem class_body_never_empty (node : class_node)
    source source_file indent include_docstrings include_private :
  stub_class unparse constant_str get_source_segment unparse_stmt node
    source source_file indent include_docstrings include_private
  = match
      class_loop unparse constant_str get_source_segment unparse_stmt
        (fun c ind =>
           stub_class unparse constant_str get_source_segment unparse_stmt
             c source source_file ind include_docstrings include_private)
        source source_file (indent +:+ "    ") include_docstrings
        include_private 0 (cls_body node) ([], false)
    with
    | Ok (added, flag) =>
        Ok (Str.join Str.newline
              (class_head_lines unparse node source_file indent
               ++ body_or_placeholder (indent +:+ "    ")
                    (docstring_lines constant_str (cls_body node)
                       include_docstrings (indent +:+ "    ") ++ added)))
    | Raise e => Raise e
    end
  /\ (forall added flag,
        class_loop unparse constant_str get_source_segment unparse_stmt
          (fun c ind =>
             stub_class unparse constant_str get_source_segment unparse_stmt
               c source source_file ind include_docstrings include_private)
          source source_file (indent +:+ "    ") include_docstrings
          include_private 0 (cls_body node) ([], false)
        = Ok (added, flag) ->
        flag = bool_decide (added <> [])).
Proof.
  split.
  - destruct node as [name bases keywords body decs l1 l2].
    unfold class_head_lines.
    cbn [stub_class cls_body cls_name cls_bases cls_keywords
         cls_decorator_list cls_lineno cls_end_lineno].
    set (doc := docstring_lines constant_str body include_docstrings
                  (indent +:+ "    ")).
    rewrite class_loop_state.
    destruct (class_loop _ _ _ _ _ _ _ _ _ _ _ body ([], false))
      as [[added flag]|e] eqn:Hloop; [|reflexivity].
    apply class_loop_adds in Hloop as (added' & Ha & ->).
    cbn [app] in Ha. subst added'.
    unfold from_state. cbn [fst snd orb]. rewrite bind_Ok.
    unfold body_or_placeholder.
    destruct doc as [|d doc'].
    + rewrite bool_decide_eq_false_2 by (intros H; apply H; reflexivity).
      destruct added as [|a added'].
      * rewrite bool_decide_eq_false_2 by (intros H; apply H; reflexivity).
        cbn [orb negb]. same_lines.
      * rewrite bool_decide_eq_true_2 by discriminate. cbn [orb negb].
        same_lines.
    + rewrite bool_decide_eq_true_2 by discriminate. cbn [orb negb].
      same_lines.
  - intros added flag Hloop.
    apply class_loop_adds in Hloop as (added' & Ha & ->).
    cbn [app] in Ha. subst added'. reflexivity.
Qed.

End DeclarationsMore.

(** ** More on [stub_module] *)

Section ModuleMore.

Context {expr simple : Type}.
Variable unparse : expr -> string.
Variable constant_str : expr -> option string.
Variable get_source_segment : string -> stmt expr simple -> option string.
Variable unparse_stmt : stmt expr simple -> string.
Variable ast_parse : string -> result (list (stmt expr simple)).

Local Abbreviation stmt_node := (stmt expr simple).

Lemma module_node_silent source source_file include_docstrings
    include_private i (node : stmt_node) parts :
  module_silent constant_str include_docstrings include_private i node
  = true ->
  module_node unparse constant_str get_source_segment unparse_stmt source
    source_file include_docstrings include_private i node parts
  = Ok parts.
Proof.
  unfold module_silent, module_node.
  destruct (is_str_expr constant_str node) as [value|].
  - destruct (i =? 0); [|reflexivity].
    destruct include_docstrings; [discriminate|reflexivity].
  - destruct node; try discriminate; try reflexivity;
      intros ->; reflexivity.
Qed.

Lemma module_node_other source source_file include_docstrings
    include_private i parts :
  module_node unparse constant_str get_source_segment unparse_stmt source
    source_file include_docstrings include_private i OtherStmt parts
  = Ok parts.
Proof. reflexivity. Qed.

(** X10: a top-level node that is passed over at its index leaves in the
    parts of the module what a statement of no rendered kind leaves:
    nothing. So a private function or class under private filtering, a
    string expression statement after the first node, and the module
    docstring when docstrings are switched off are all absent from the
    stub. *)
Theorem module_silent_node_absent source source_file include_docstrings
    include_private (pre post : list stmt_node) (node : stmt_node) :
  forall i parts,
    module_silent constant_str include_docstrings include_private
      (i + length pre) node = true ->
    module_loop unparse constant_str get_source_segment unparse_stmt source
      source_file include_docstrings include_private i
      (pre ++ node :: post) parts
    = module_loop unparse constant_str get_source_segment unparse_stmt
        source source_file include_docstrings include_private i
        (pre ++ OtherStmt :: post) parts.
Proof.
  induction pre as [|x pre IH]; intros i parts Hs.
  - cbn [app module_loop]. simpl in Hs. rewrite Nat.add_0_r in Hs.
    rewrite (module_node_silent _ _ _ _ _ _ _ Hs), module_node_other.
    reflexivity.
  - cbn [app module_loop].
    destruct (module_node _ _ _ _ _ _ _ _ i x parts) as [parts'|e];
      [|reflexivity].
    rewrite !bind_Ok. apply IH.
    simpl in Hs. rewrite Nat.add_succ_r in Hs. exact Hs.
Qed.

Lemma module_loop_silent source source_file include_docstrings
    include_private (tree : list stmt_node) :
  forall i parts,
    (forall j node,
       tree !! j = Some node ->
       module_silent constant_str include_docstrings include_private
         (i + j) node = true) ->
    module_loop unparse constant_str get_source_segment unparse_stmt source
      source_file include_docstrings include_private i tree parts
    = Ok parts.
Proof.
  induction tree as [|node tree IH]; intros i parts Hall; [reflexivity|].
  cbn [module_loop].
  rewrite module_node_silent
    by (rewrite <- (Nat.add_0_r i); apply Hall; reflexivity).
  rewrite bind_Ok. apply IH. intros j n Hn.
  replace (S i + j) with (i + S j) by lia. apply Hall. exact Hn.
Qed.

(** X11: a file whose top-level nodes are all passed over gets no section:
    its module is rendered as the empty text, which line 339 drops. *)
Theorem silent_module_no_section (fs : file_system) (root py_file rel : path)
    (source : string) (tree : list stmt_node) include_docstrings
    include_private (sections : list string) :
  relative_to py_file (parent root) = Ok rel ->
  read_text fs py_file = Ok source ->
  ast_parse source = Ok tree ->
  (forall j node,
     tree !! j = Some node ->
     module_silent constant_str include_docstrings include_private j node
     = true) ->
  stub_module unparse constant_str get_source_segment unparse_stmt ast_parse
    source (path_str rel) include_docstrings include_private
  = Ok EmptyString
  /\ package_section
       (fun source source_file =>
          stub_module unparse constant_str get_source_segment unparse_stmt
            ast_parse source source_file include_docstrings include_private)
       fs root py_file sections
     = Ok sections.
Proof.
  intros Hrel Hread Htree Hall.
  assert (Hstub : stub_module unparse constant_str get_source_segment
                    unparse_stmt ast_parse source
                    (path_str rel) include_docstrings include_private
                  = Ok EmptyString).
  { unfold stub_module. rewrite Htree, bind_Ok.
    rewrite module_loop_silent by exact Hall. reflexivity. }
  split; [exact Hstub|].
  unfold package_section. rewrite Hrel, bind_Ok, Hread, bind_Ok.
  destruct (Str.is_empty (Str.strip source)); [reflexivity|].
  rewrite Hstub. reflexivity.
Qed.

End ModuleMore.

(** ** More on [_sort_key] and [stub_package] *)



(** The two shapes of a key. *)
Lemma sort_key_shape (root rel : path) (k : list string) :
  _sort_key (root ++ rel) root = Ok k ->
  (last rel <> Some "__init__.py" /\ k = rel)
  \/ (exists front, rel = front ++ ["__init__.py"] /\ k = front ++ [nul]).
Proof.
  unfold _sort_key. rewrite relative_to_app, bind_Ok.
  destruct (last rel) as [name|] eqn:Hl; [|discriminate].
  destruct (String.eqb_spec name "__init__.py") as [->|Hne].
  - intros [= <-]. right. apply last_Some in Hl as [front ->].
    exists front. rewrite set_last_snoc. auto.
  - intros [= <-]. left. split; [congruence|reflexivity].
Qed.


(** The parent of a path is a front part of it. *)
Lemma parent_front (root : path) :
  exists tail, root = parent root ++ tail.
Proof.
  unfold parent. destruct (anchor_only root).
  - exists []. rewrite app_nil_r. reflexivity.
  - destruct root as [|x root _] using rev_ind.
    + exists []. reflexivity.
    + exists [x]. rewrite removelast_last. reflexivity.
Qed.

(** A path below the root is below the parent of the root. *)
Lemma relative_to_parent (root p : path) :
  below root p ->
  exists rel, relative_to p (parent root) = Ok rel /\ p = parent root ++ rel.
Proof.
  intros (rel & -> & _). destruct (parent_front root) as [tail Htail].
  set (up := parent root) in *. clearbody up. subst root.
  rewrite <- app_assoc, relative_to_app. eauto.
Qed.

Lemma keyed_of_Ok (root p : path) (k : list string) :
  _sort_key p root = Ok k -> keyed_of root p = (k, p).
Proof. unfold keyed_of. intros ->. reflexivity. Qed.

Lemma mapM_keyed (root : path) (files : list path) :
  Forall (below root) files ->
  mapM (fun p => k ← _sort_key p root; mret (k, p)) files
  = Ok (map (keyed_of root) files).
Proof.
  induction 1 as [|p files (rel & -> & Hrel) _ IH]; [reflexivity|].
  destruct (sort_key_Ok root rel Hrel) as [k Hk].
  rewrite mapM_cons, IH, Hk, !bind_Ok. cbn [map].
  rewrite (keyed_of_Ok _ _ _ Hk). reflexivity.
Qed.

Lemma sorted_py_files_below (root : path) (files : list path) :
  Forall (below root) files ->
  sorted_py_files root files
  = Ok (map snd (sorted_keyed (map (keyed_of root) files))).
Proof.
  intros H. unfold sorted_py_files. rewrite mapM_keyed by exact H.
  reflexivity.
Qed.

Lemma keyed_of_snd (root : path) (files : list path) :
  map snd (map (keyed_of root) files) = files.
Proof.
  induction files as [|p files IH]; [reflexivity|]. simpl. rewrite IH.
  unfold keyed_of. destruct (_sort_key p root); reflexivity.
Qed.

Lemma sorted_below_perm (root : path) (files : list path) :
  map snd (sorted_keyed (map (keyed_of root) files)) ≡ₚ files.
Proof.
  rewrite <- (keyed_of_snd root files) at 2.
  apply (fmap_Permutation snd), sorted_keyed_perm.
Qed.

Section PackageMore.

Variable stub_module_of : string -> string -> result string.
Variable fs : file_system.

(** One pass of lines 328-340 adds the section of the file, if it has
    one. *)
Lemma package_section_adds (root py_file : path) (sections : list string) :
  below root py_file ->
  renders stub_module_of fs root py_file ->
  package_section stub_module_of fs root py_file sections
  = Ok (sections
          ++ option_list (section_of stub_module_of fs root py_file)).
Proof.
  intros Hbelow (source & Hread & Hrenders).
  destruct (relative_to_parent root py_file Hbelow) as (rel & Hrel & _).
  unfold package_section, section_of. rewrite Hrel, bind_Ok, Hread, bind_Ok.
  destruct (Str.is_empty (Str.strip source)) eqn:Hblank.
  - simpl. rewrite app_nil_r. reflexivity.
  - destruct (Hrenders rel Hrel eq_refl) as [body ->]. rewrite bind_Ok.
    destruct (negb (Str.is_empty (Str.strip body))); simpl;
      [|rewrite app_nil_r]; reflexivity.
Qed.

Lemma package_loop_sections (root : path) (files : list path) :
  forall sections,
    Forall (below root) files ->
    Forall (renders stub_module_of fs root) files ->
    package_loop stub_module_of fs root files sections
    = Ok (sections ++ omap (section_of stub_module_of fs root) files).
Proof.
  induction files as [|f files IH]; intros sections Hb Hr.
  - simpl. rewrite app_nil_r. reflexivity.
  - apply Forall_cons in Hb as [Hb Hbs]. apply Forall_cons in Hr as [Hr Hrs].
    cbn [package_loop]. rewrite package_section_adds by assumption.
    rewrite bind_Ok, IH by assumption. rewrite <- app_assoc.
    cbn [omap list_omap].
    destruct (section_of stub_module_of fs root f); reflexivity.
Qed.

(** The section of a file that lies below the root and renders: none for a
    blank text or a blank stub, and else the header with the path of the
    file from the parent of the root, a blank line and the stub. *)
Lemma section_of_below (root f : path) :
  below root f ->
  renders stub_module_of fs root f ->
  exists rel source,
    f = parent root ++ rel
    /\ read_text fs f = Ok source
    /\ (Str.is_empty (Str.strip source) = true ->
        section_of stub_module_of fs root f = None)
    /\ (Str.is_empty (Str.strip source) = false ->
        exists body,
          stub_module_of source (path_str rel) = Ok body
          /\ section_of stub_module_of fs root f
             = if Str.is_empty (Str.strip body) then None
               else Some (("# === " +:+ path_str rel +:+ " ===")
                            +:+ Str.newline +:+ Str.newline +:+ body)).
Proof.
  intros Hbelow (source & Hread & Hrenders).
  destruct (relative_to_parent root f Hbelow) as (rel & Hrel & Hf).
  exists rel, source. split; [exact Hf|]. split; [exact Hread|].
  unfold section_of. rewrite Hrel, Hread. split.
  - intros ->. reflexivity.
  - intros Hblank. rewrite Hblank.
    destruct (Hrenders rel Hrel Hblank) as [body Hbody]. exists body.
    split; [exact Hbody|]. rewrite Hbody.
    destruct (Str.is_empty (Str.strip body)); reflexivity.
Qed.

(** X13: for a directory whose files all lie below it and all render, the
    stub of the package is the sections of the files in the order of line
    324, joined by blank lines. A file has a section when its text is not
    blank and the stub of its module is not blank; the section is the
    header with the path of the file from the parent of the directory, a
    blank line and the stub of the module, which is given the same path as
    its file name. *)
Theorem stub_package_sections (p : path) :
  is_file fs p = false ->
  Forall (below p) (rglob_py fs p) ->
  Forall (renders stub_module_of fs p) (rglob_py fs p) ->
  exists py_files,
    sorted_py_files p (rglob_py fs p) = Ok py_files
    /\ py_files ≡ₚ rglob_py fs p
    /\ stub_package stub_module_of fs p
       = Ok (Str.join (Str.newline +:+ Str.newline)
               (omap (section_of stub_module_of fs p) py_files))
    /\ (forall f,
          f ∈ py_files ->
          exists rel source,
            f = parent p ++ rel
            /\ read_text fs f = Ok source
            /\ (Str.is_empty (Str.strip source) = true ->
                section_of stub_module_of fs p f = None)
            /\ (Str.is_empty (Str.strip source) = false ->
                exists body,
                  stub_module_of source (path_str rel) = Ok body
                  /\ section_of stub_module_of fs p f
                     = if Str.is_empty (Str.strip body) then None
                       else Some (("# === " +:+ path_str rel +:+ " ===")
                                    +:+ Str.newline +:+ Str.newline
                                    +:+ body))).
Proof.
  intros Hdir Hb Hr.
  pose proof (sorted_below_perm p (rglob_py fs p)) as Hperm.
  eexists. split; [apply sorted_py_files_below, Hb|]. split; [exact Hperm|].
  split.
  - unfold stub_package. rewrite Hdir, sorted_py_files_below by exact Hb.
    rewrite bind_Ok, package_loop_sections.
    + reflexivity.
    + rewrite Hperm. exact Hb.
    + rewrite Hperm. exact Hr.
  - intros f Hf. rewrite Hperm in Hf. rewrite Forall_forall in Hb, Hr.
    apply section_of_below; auto.
Qed.

Lemma package_loop_raises (root f : path) (files : list path) :
  forall sections,
    f ∈ files ->
    (forall source,
       read_text fs f = Ok source ->
       Str.is_empty (Str.strip source) = false
       /\ forall label, exists e, stub_module_of source label = Raise e) ->
    exists e, package_loop stub_module_of fs root files sections = Raise e.
Proof.
  intros sections Hin Hraise. revert sections.
  induction files as [|g files IH]; intros sections; [inversion Hin|].
  cbn [package_loop].
  destruct (package_section stub_module_of fs root g sections)
    as [sections'|e] eqn:Hg; [|eauto].
  rewrite bind_Ok. apply elem_of_cons in Hin as [<-|Hin]; [|apply IH, Hin].
  exfalso. unfold package_section in Hg.
  destruct (relative_to f (parent root)) as [rel|e]; [|discriminate].
  rewrite bind_Ok in Hg.
  destruct (read_text fs f) as [source|e]; [|discriminate].
  rewrite bind_Ok in Hg.
  destruct (Hraise source eq_refl) as [Hblank Hstub].
  rewrite Hblank in Hg.
  destruct (Hstub (path_str rel)) as [e He]. rewrite He in Hg.
  discriminate.
Qed.

(** X14: when one file of a directory cannot be read, or its text is not
    blank and its module cannot be rendered, [stub_package] raises: no
    text is returned for the other files. *)
Theorem stub_package_fails_whole (p f : path) :
  is_file fs p = false ->
  f ∈ rglob_py fs p ->
  (forall source,
     read_text fs f = Ok source ->
     Str.is_empty (Str.strip source) = false
     /\ forall label, exists e, stub_module_of source label = Raise e) ->
  exists e, stub_package stub_module_of fs p = Raise e.
Proof.
  intros Hdir Hin Hraise. unfold stub_package. rewrite Hdir.
  destruct (sorted_py_files p (rglob_py fs p)) as [py_files|e] eqn:Hs;
    [|eauto].
  rewrite bind_Ok.
  assert (Hf : f ∈ py_files).
  { unfold sorted_py_files in Hs.
    destruct (mapM _ (rglob_py fs p)) as [keyed|e] eqn:Hk; [|discriminate].
    rewrite bind_Ok in Hs. injection Hs as <-.
    apply keyed_files in Hk as [Hfiles _].
    assert (Hperm : map snd (sorted_keyed keyed) ≡ₚ rglob_py fs p).
    { rewrite <- Hfiles. apply (fmap_Permutation snd), sorted_keyed_perm. }
    rewrite Hperm. exact Hin. }
  destruct (package_loop_raises p f py_files [] Hf Hraise) as [e ->].
  eauto.
Qed.

End PackageMore.

(** Files with names of files have different keys. *)
Lemma sort_key_inj (root p q : path) (k : list string) :
  named_below root p -> named_below root q ->
  _sort_key p root = Ok k -> _sort_key q root = Ok k -> p = q.
Proof.
  intros (rel & -> & _ & Hrel) (rel' & -> & _ & Hrel') Hp Hq.
  assert (Hnul : forall l, Forall (fun s => is_file_name s = true) l ->
                           nul ∉ l).
  { intros l Hl Hin. rewrite Forall_forall in Hl.
    specialize (Hl nul Hin). discriminate. }
  f_equal.
  apply sort_key_shape in Hp as [[_ ->]|(front & -> & ->)];
    apply sort_key_shape in Hq as [[_ Hk]|(front' & -> & Hk)].
  - exact Hk.
  - destruct (Hnul _ Hrel). rewrite Hk. apply elem_of_app. right.
    constructor.
  - destruct (Hnul _ Hrel'). rewrite <- Hk. apply elem_of_app. right.
    constructor.
  - apply app_inj_tail in Hk as [-> _]. reflexivity.
Qed.

(** X15: for files below the root whose parts are names of files, the
    order of line 324 does not depend on the order in which the files are
    found. *)
Theorem sorted_py_files_any_order (root : path) (files files' : list path) :
  Forall (named_below root) files ->
  files ≡ₚ files' ->
  exists py_files,
    sorted_py_files root files = Ok py_files
    /\ sorted_py_files root files' = Ok py_files.
Proof.
  intros Hnamed Hperm.
  assert (Hnamed' : Forall (named_below root) files')
    by (rewrite <- Hperm; exact Hnamed).
  assert (Hb : forall l, Forall (named_below root) l ->
                         Forall (below root) l).
  { intros l Hl. eapply Forall_impl; [exact Hl|].
    intros p (rel & ? & ? & _). exists rel. auto. }
  rewrite !sorted_py_files_below by auto.
  eexists. split; [reflexivity|]. do 2 f_equal.
  apply (StronglySorted_unique_strong key_le).
  - intros x1 x2 H1 H2 H12 H21.
    rewrite sorted_keyed_perm in H1, H2.
    apply list_elem_of_fmap in H1 as (p1 & -> & Hp1).
    apply list_elem_of_fmap in H2 as (p2 & -> & Hp2).
    rewrite Forall_forall in Hnamed, Hnamed'.
    pose proof (Hnamed _ Hp2) as Hn2. pose proof (Hnamed' _ Hp1) as Hn1.
    unfold key_le in H12, H21.
    pose proof (tuple_ltb_total _ _ H12 H21) as Hk.
    unfold keyed_of in *.
    destruct Hn1 as (rel1 & E1 & Hr1 & Hf1).
    destruct Hn2 as (rel2 & E2 & Hr2 & Hf2).
    destruct (sort_key_Ok root rel1 Hr1) as [k1 Hk1].
    destruct (sort_key_Ok root rel2 Hr2) as [k2 Hk2].
    rewrite <- E1 in Hk1. rewrite <- E2 in Hk2.
    rewrite Hk1, Hk2 in *. simpl in Hk. subst k2.
    f_equal. symmetry.
    apply (sort_key_inj root p2 p1 k1); try assumption.
    + exists rel2. auto.
    + exists rel1. auto.
  - apply sorted_keyed_sorted.
  - apply sorted_keyed_sorted.
  - rewrite !sorted_keyed_perm. apply (fmap_Permutation (keyed_of root)).
    symmetry. exact Hperm.
Qed.

(** ** Names of underscores only *)

Lemma underscores_snoc (n : nat) :
  underscores (S n) = underscores n +:+ "_".
Proof.
  induction n as [|n IH]; [reflexivity|].
  cbn [underscores] in *. rewrite str_app_cons, <- IH. reflexivity.
Qed.

(** X16: a name made of underscores only is private when it is one
    underscore, and is not when it is empty or has two or more: the double
    underscores at its start and at its end may overlap. *)
Theorem underscores_private (n : nat) :
  _is_private (underscores n) = (n =? 1).
Proof.
  destruct n as [|[|n]]; [reflexivity..|].
  unfold _is_private.
  assert (Str.endswith (underscores (S (S n))) "__" = true) as ->.
  { apply endswith_suffix. exists (underscores n).
    rewrite !underscores_snoc, str_app_assoc. reflexivity. }
  assert (Str.startswith (underscores (S (S n))) "_" = true) as ->.
  { apply startswith_prefix. exists (underscores (S n)). reflexivity. }
  assert (Str.startswith (underscores (S (S n))) "__" = true) as ->.
  { apply startswith_prefix. exists (underscores n). reflexivity. }
  reflexivity.
Qed.

(** ** Ordering files that are in order *)

Lemma sorted_insert_first {A : Type} (x : list string * A)
    (l : list (list string * A)) :
  Forall (key_le x) l -> sorted_insert x l = x :: l.
Proof.
  destruct l as [|y l]; [reflexivity|]. intros [Hy _]%Forall_cons.
  cbn [sorted_insert]. unfold key_le in Hy. rewrite Hy. reflexivity.
Qed.

Lemma sorted_keyed_fixed {A : Type} (l : list (list string * A)) :
  StronglySorted key_le l -> sorted_keyed l = l.
Proof.
  induction 1 as [|x l _ IH Hx]; [reflexivity|].
  cbn [sorted_keyed]. rewrite IH. apply sorted_insert_first, Hx.
Qed.

Lemma mapM_keyed_back (root : path) (keyed : list (list string * path)) :
  Forall (fun kp => _sort_key kp.2 root = Ok kp.1) keyed ->
  mapM (fun p => k ← _sort_key p root; mret (k, p)) (map snd keyed)
  = Ok keyed.
Proof.
  induction 1 as [|[k p] keyed Hk _ IH]; [reflexivity|].
  cbn [map snd]. simpl in Hk. rewrite mapM_cons, Hk, !bind_Ok, IH.
  reflexivity.
Qed.

(** X17: the list that line 324 gives is in order: ordering it again gives
    the same list. *)
Theorem sorted_py_files_fixed (root : path) (files out : list path) :
  sorted_py_files root files = Ok out ->
  sorted_py_files root out = Ok out.
Proof.
  unfold sorted_py_files.
  destruct (mapM _ files) as [keyed|e] eqn:Hk; [|discriminate].
  rewrite bind_Ok. intros [= <-].
  apply keyed_files in Hk as [_ Hkeys].
  rewrite mapM_keyed_back.
  - rewrite bind_Ok, sorted_keyed_fixed by apply sorted_keyed_sorted.
    reflexivity.
  - rewrite sorted_keyed_perm. exact Hkeys.
Qed.

(** ** The further theorems at sample declarations *)

(** [sample_surplus]: one parameter and two defaults, the second is used,
    also when the first is another one. *)
Lemma surplus_defaults_sample :
  length (kwonlyargs sample_surplus) <= length (kw_defaults sample_surplus)
  /\ length (posonlyargs sample_surplus ++ args sample_surplus)
     <= length (defaults sample_surplus)
  /\ exists parts,
       format_arguments_parts id sample_surplus = Ok parts
       /\ format_arguments id sample_surplus = Ok (Str.join ", " parts)
       /\ parts !! 0 = Some "x = 2"
       /\ format_arguments id (set_defaults sample_surplus ["7"; "2"])
          = format_arguments id sample_surplus.
Proof.
  assert (H1 : length (kwonlyargs sample_surplus)
               <= length (kw_defaults sample_surplus)) by (simpl; lia).
  assert (H2 : length (posonlyargs sample_surplus ++ args sample_surplus)
               <= length (defaults sample_surplus)) by (simpl; lia).
  split; [exact H1|]. split; [exact H2|].
  destruct (surplus_defaults_use_the_last id sample_surplus H1 H2)
    as (parts & Hp & Ht & Hi & Hds).
  exists parts. split; [exact Hp|]. split; [exact Ht|]. split.
  - destruct (Hi 0 (Arg "x" None) eq_refl) as (e & He & Hx).
    injection He as <-. exact Hx.
  - exact (proj2 (Hds ["7"])).
Defined.

(** [sample_arguments] has nine fragments, the last one [**kw]. *)
Lemma kwarg_is_last_sample :
  length (kwonlyargs sample_arguments) <= length (kw_defaults sample_arguments)
  /\ exists parts,
       format_arguments_parts id sample_arguments = Ok parts
       /\ length parts = 9
       /\ last parts = Some "**kw".
Proof.
  assert (H1 : length (kwonlyargs sample_arguments)
               <= length (kw_defaults sample_arguments)) by (simpl; lia).
  split; [exact H1|].
  destruct (kwarg_is_last id sample_arguments H1) as (parts & Hp & Hlen & Hk).
  exists parts. split; [exact Hp|]. split; [exact Hlen|].
  exact (Hk (Arg "kw" None) eq_refl).
Defined.

(** [sample_doc] under four spaces: the blank line is emptied and the
    closing line is added. *)
Lemma format_docstring_lines_sample :
  count_newlines "    " = 0
  /\ Str.split Str.nl sample_doc = ["Sum."; "  "; "Returns int."]
  /\ Str.split Str.nl (_format_docstring sample_doc "    ")
     = ["    " +:+ Str.triple_quote +:+ "Sum."; EmptyString;
        "    Returns int."; "    " +:+ Str.triple_quote; EmptyString].
Proof.
  assert (H2 : Str.split Str.nl sample_doc = ["Sum."; "  "; "Returns int."])
    by reflexivity.
  assert (H3 : ["  "; "Returns int."] <> @nil string) by discriminate.
  split; [reflexivity|]. split; [exact H2|].
  exact (format_docstring_lines sample_doc "    " "Sum."
           ["  "; "Returns int."] eq_refl H2 H3).
Defined.

(** A docstring of one line under four spaces. *)
Lemma format_docstring_one_line_sample :
  count_newlines "One line." = 0
  /\ Str.rstrip (_format_docstring "One line." "    ")
     = "    " +:+ Str.triple_quote +:+ "One line." +:+ Str.triple_quote.
Proof.
  split; [reflexivity|].
  exact (proj2 (format_docstring_one_line "One line." "    " eq_refl)).
Defined.

(** The docstring element of a body that starts with the docstring
    [doc]. *)
Lemma docstring_lines_quoted_sample :
  ("    " +:+ Str.triple_quote +:+ "doc" +:+ Str.triple_quote)
  ∈ docstring_lines Some [@Expr string string "doc"] true "    "
  /\ Str.endswith ("    " +:+ Str.triple_quote +:+ "doc" +:+ Str.triple_quote)
       Str.triple_quote = true.
Proof.
  assert (H : ("    " +:+ Str.triple_quote +:+ "doc" +:+ Str.triple_quote)
              ∈ docstring_lines Some [@Expr string string "doc"] true "    ").
  { apply list_elem_of_singleton. reflexivity. }
  split; [exact H|].
  exact (proj1 (proj2 (docstring_lines_quoted Some _ true "    " _ H))).
Defined.

(** [class E: pass] *)
Lemma class_without_content_sample :
  Forall (fun child => class_silent true child = true)
    (cls_body sample_empty_class)
  /\ stub_class id Some (fun _ _ => None) (fun _ => EmptyString)
       sample_empty_class "src" "m.py" EmptyString true true
     = Ok (Str.join Str.newline ["# m.py:1-2"; "class E:"; "    ..."]).
Proof.
  assert (H : Forall (fun child => class_silent true child = true)
                (cls_body sample_empty_class))
    by (repeat constructor).
  split; [exact H|].
  exact (class_without_content id Some (fun _ _ => None)
           (fun _ => EmptyString) sample_empty_class "src" "m.py"
           EmptyString true true H).
Defined.

(** The body of [sample_class] under private filtering: three members and
    no placeholder of the class itself. *)
Lemma class_body_never_empty_sample :
  exists added,
    class_loop id Some (fun _ _ => None) (fun _ => EmptyString)
      (fun c ind =>
         stub_class id Some (fun _ _ => None) (fun _ => EmptyString) c
           "src" "m.py" ind true false)
      "src" "m.py" (EmptyString +:+ "    ") true false 0
      (cls_body sample_class) ([], false)
    = Ok (added, bool_decide (added <> []))
    /\ length added = 6
    /\ stub_class id Some (fun _ _ => None) (fun _ => EmptyString)
         sample_class "src" "m.py" EmptyString true false
       = Ok (Str.join Str.newline
               (class_head_lines id sample_class "m.py" EmptyString
                ++ added)).
Proof.
  destruct (class_body_never_empty id Some (fun _ _ => None)
              (fun _ => EmptyString) sample_class "src" "m.py" EmptyString
              true false) as [Hout Hflag].
  destruct (class_loop id Some (fun _ _ => None) (fun _ => EmptyString)
              (fun c ind =>
                 stub_class id Some (fun _ _ => None) (fun _ => EmptyString)
                   c "src" "m.py" ind true false)
              "src" "m.py" (EmptyString +:+ "    ") true false 0
              (cls_body sample_class) ([], false))
    as [[added flag]|e] eqn:Hloop; [|discriminate].
  exists added. rewrite (Hflag added flag eq_refl) in Hloop |- *.
  split; [reflexivity|].
  assert (Hlen : length added = 6)
    by (vm_compute in Hloop; injection Hloop as <-; reflexivity).
  split; [exact Hlen|]. rewrite Hout.
  destruct added; [discriminate|]. reflexivity.
Defined.

(** The private function of [sample_module] leaves what a statement of no
    rendered kind leaves. *)
Lemma module_silent_node_absent_sample :
  module_silent Some true false (0 + length [@Assign string string "x = 1"])
    (sample_method "_hidden" 3) = true
  /\ module_loop id Some (fun _ _ => None) (fun _ => EmptyString)
       "src" "m.py" true false 0 sample_module []
     = module_loop id Some (fun _ _ => None) (fun _ => EmptyString)
         "src" "m.py" true false 0 [Assign "x = 1"; OtherStmt] [].
Proof.
  assert (H : module_silent Some true false
                (0 + length [@Assign string string "x = 1"])
                (sample_method "_hidden" 3) = true) by reflexivity.
  split; [exact H|].
  exact (module_silent_node_absent id Some (fun _ _ => None)
           (fun _ => EmptyString) "src" "m.py" true false
           [Assign "x = 1"] [] (sample_method "_hidden" 3) 0 [] H).
Defined.

(** A file that holds a private function only, under private filtering. *)
Lemma silent_module_no_section_sample :
  relative_to ["pkg"; "a.py"] (parent sample_root) = Ok ["pkg"; "a.py"]
  /\ read_text (sample_fs []) ["pkg"; "a.py"] = Ok "x = 1"
  /\ package_section sample_private_stub_module (sample_fs [])
       sample_root ["pkg"; "a.py"] []
     = Ok [].
Proof.
  split; [reflexivity|]. split; [reflexivity|].
  refine (proj2 (silent_module_no_section id Some (fun _ _ => None)
                   (fun _ => EmptyString) (fun _ => Ok sample_private_module)
                   (sample_fs []) sample_root ["pkg"; "a.py"]
                   ["pkg"; "a.py"] "x = 1" sample_private_module true false
                   [] eq_refl eq_refl eq_refl _)).
  intros [|j] node; [intros [= <-]; reflexivity|].
  destruct j; discriminate.
Defined.

Lemma sample_files_below : Forall (below sample_root) sample_files.
Proof.
  repeat (constructor; [eexists; split; [reflexivity|discriminate]|]).
  constructor.
Defined.

(** The sample package, its files found in the order of the example. *)
Lemma stub_package_sections_sample :
  is_file (sample_fs sample_files) sample_root = false
  /\ Forall (below sample_root) (rglob_py (sample_fs sample_files) sample_root)
  /\ Forall (renders sample_stub_module (sample_fs sample_files) sample_root)
       (rglob_py (sample_fs sample_files) sample_root)
  /\ exists py_files,
       sorted_py_files sample_root sample_files = Ok py_files
       /\ stub_package sample_stub_module (sample_fs sample_files) sample_root
          = Ok (Str.join (Str.newline +:+ Str.newline)
                  (omap (section_of sample_stub_module
                           (sample_fs sample_files) sample_root) py_files))
       /\ omap (section_of sample_stub_module (sample_fs sample_files)
                  sample_root) py_files
          = sample_sections.
Proof.
  assert (H3 : Forall (renders sample_stub_module (sample_fs sample_files)
                         sample_root)
                 (rglob_py (sample_fs sample_files) sample_root)).
  { apply Forall_forall. intros f _. exists "x = 1".
    split; [reflexivity|]. intros rel _ _. eexists. reflexivity. }
  split; [reflexivity|]. split; [exact sample_files_below|].
  split; [exact H3|].
  destruct (stub_package_sections sample_stub_module
              (sample_fs sample_files) sample_root eq_refl
              sample_files_below H3) as (py_files & Hs & _ & Hp & _).
  exists py_files. split; [exact Hs|]. split; [exact Hp|].
  assert (Hfiles : py_files = sample_files_sorted)
    by (vm_compute in Hs; injection Hs as <-; reflexivity).
  rewrite Hfiles. vm_compute. reflexivity.
Defined.

(** The sample package with a parser that rejects every text. *)
Lemma stub_package_fails_whole_sample :
  is_file (sample_fs sample_files) sample_root = false
  /\ ["pkg"; "a.py"] ∈ rglob_py (sample_fs sample_files) sample_root
  /\ exists e,
       stub_package failing_stub_module (sample_fs sample_files) sample_root
       = Raise e.
Proof.
  assert (H2 : ["pkg"; "a.py"]
               ∈ rglob_py (sample_fs sample_files) sample_root)
    by (repeat constructor).
  split; [reflexivity|]. split; [exact H2|].
  apply (stub_package_fails_whole failing_stub_module
           (sample_fs sample_files) sample_root ["pkg"; "a.py"] eq_refl H2).
  intros source [= <-]. split; [reflexivity|].
  intros label. eexists. reflexivity.
Defined.

(** The files of the sample package found in the opposite order. *)
Lemma sorted_py_files_any_order_sample :
  Forall (named_below sample_root) sample_files
  /\ sample_files ≡ₚ rev sample_files
  /\ exists py_files,
       sorted_py_files sample_root sample_files = Ok py_files
       /\ sorted_py_files sample_root (rev sample_files) = Ok py_files.
Proof.
  assert (H1 : Forall (named_below sample_root) sample_files).
  { repeat (constructor;
              [eexists; split;
                 [reflexivity|split; [discriminate|repeat constructor]]|]).
    constructor. }
  assert (H2 : sample_files ≡ₚ rev sample_files) by apply Permutation_rev.
  split; [exact H1|]. split; [exact H2|].
  exact (sorted_py_files_any_order sample_root sample_files
           (rev sample_files) H1 H2).
Defined.

(** Ordering the ordered files of the sample package. *)
Lemma sorted_py_files_fixed_sample :
  sorted_py_files sample_root sample_files = Ok sample_files_sorted
  /\ sorted_py_files sample_root sample_files_sorted = Ok sample_files_sorted.
Proof.
  assert (H : sorted_py_files sample_root sample_files
              = Ok sample_files_sorted) by reflexivity.
  split; [exact H|].
  exact (sorted_py_files_fixed sample_root sample_files sample_files_sorted H).
Defined.

(** A package at the root of the file system is its own parent: the
    sections are labelled with the paths below the anchor. A package in a
    directory is labelled from that directory. *)
Example stub_package_at_anchor :
  parent ["/"] = ["/"]
  /\ stub_package sample_stub_module (sample_fs [["/"; "a.py"]]) ["/"]
     = Ok ("# === a.py ===" +:+ Str.newline +:+ Str.newline +:+ "x = 1")
  /\ stub_package sample_stub_module
       (sample_fs [["/"; "tmp"; "pkg"; "a.py"]]) ["/"; "tmp"; "pkg"]
     = Ok ("# === pkg/a.py ===" +:+ Str.newline +:+ Str.newline +:+ "x = 1").
Proof. repeat split; vm_compute; reflexivity. Qed.

(** A single file is rendered under its name, and a file that cannot be
    read makes [stub_package] raise what the read raises. *)
Example stub_package_one_file :
  stub_package (fun source source_file => Ok (source_file +:+ ": " +:+ source))
    (FileSystem (fun _ => true) (fun _ => Ok "x = 1") (fun _ => []))
    ["pkg"; "a.py"]
  = Ok "a.py: x = 1"
  /\ stub_package sample_stub_module
       (FileSystem (fun _ => true) (fun _ => Raise OSError) (fun _ => []))
       ["pkg"; "a.py"]
     = Raise OSError
  /\ stub_package sample_stub_module
       (FileSystem (fun _ => false) (fun _ => Raise OSError)
          (fun _ => [["pkg"; "a.py"]]))
       ["pkg"]
     = Raise OSError.
Proof. repeat split; vm_compute; reflexivity. Qed.
